(** * Brachistochrone simulation: path solver and bead kinematics

    A shallow embedding of [app.py]: the function [calculate_paths] and the
    "Simulation Update" block of [main].

    Numbers.  Python floats are read as real numbers ([R]); rounding,
    overflow and NaN are outside this model.  The one non-finite value the
    program creates on purpose, [float('inf')] for the radius of a vertical
    drop, is kept as a constructor of its own ([PInf]).  Where the question
    is which elapsed times make the update block raise, the block is
    embedded a second time on IEEE doubles (the definitions whose names end
    in [64]), with the exceptions of [**], [/] and the [math] functions.

    Exceptions.  The Python operations that can raise on real arguments
    (float division by zero, [math.sqrt] of a negative number) return an
    [outcome], and the code is written in the corresponding error monad.

    Library calls.  [scipy.optimize.fsolve] is not part of the program; it
    is a variable of the section that embeds [calculate_paths].
    [np.sign] and [np.linspace] are given by their documented meaning on
    reals; [np.isinf] is a match on [ext]. *)

From Stdlib Require Import Floats.
From Stdlib Require Import Ascii String ZArith.
From Stdlib Require Import Reals Lra Lia List Bool Psatz.
Import ListNotations.

Open Scope R_scope.

(* Decimal float literals such as 9.81 denote the nearest double, as in
   Python. *)
Set Warnings "-inexact-float".

(** ** Outcomes of Python computations *)

Inductive exn : Set :=
  | ZeroDivisionError
  | ValueError
  | RuntimeError
  | TypeError
  | OverflowError.

Inductive outcome (T : Type) : Type :=
  | Return (v : T)
  | Raise (e : exn).

Arguments Return {T} v.
Arguments Raise {T} e.

Definition bind {T U : Type} (c : outcome T) (k : T -> outcome U) : outcome U :=
  match c with
  | Return v => k v
  | Raise e => Raise e
  end.

Notation "x <- c ;; k" := (bind c (fun x => k))
  (at level 61, c at next level, right associativity).

(** [try: c except (RuntimeError, ValueError): h] *)
Definition try_except {T : Type} (c : outcome T) (h : outcome T) : outcome T :=
  match c with
  | Raise RuntimeError | Raise ValueError => h
  | other => other
  end.

(** Float division [x / y]. *)
Definition py_div (x y : R) : outcome R :=
  if Req_dec_T y 0 then Raise ZeroDivisionError else Return (x / y).

(** [math.sqrt(x)]. *)
Definition math_sqrt (x : R) : outcome R :=
  if Rlt_dec x 0 then Raise ValueError else Return (sqrt x).

(** A float that is either a real number or [float('inf')]. *)
Inductive ext : Set :=
  | Fin (r : R)
  | PInf.

(** [np.sign(x)] *)
Definition np_sign (x : R) : R :=
  if Rlt_dec x 0 then -1 else if Rlt_dec 0 x then 1 else 0.

(** [np.linspace(start, stop, num)]: [num] samples [start + i * step] with
    [step = (stop - start) / (num - 1)]; the last one is set to [stop]. *)
Definition np_linspace (start stop : R) (num : nat) : list R :=
  let step := (stop - start) / INR (num - 1) in
  let y := map (fun i => INR i * step + start) (seq 0 num) in
  match num with
  | O | S O => y
  | _ => firstn (num - 1) y ++ [stop]
  end.

(** ** Constants and data *)

Definition G : R := 9.81 * 100.

Definition point : Type := (R * R)%type.

(** The dictionary returned by [calculate_paths], one field per key. *)
Record PathSolution : Type := mkPathSolution {
  sol_A : point;
  sol_B : point;
  sol_dx : R;
  sol_dy : R;
  line_L : R;
  line_a : R;
  line_t : R;
  line_points : list point;
  cycloid_r : ext;
  cycloid_theta_b : R;
  cycloid_t : R;
  cycloid_points : list point
}.

(** The function whose root [fsolve] is asked for:
    [lambda th: (th - math.sin(th)) - ratio * (1 - math.cos(th))]. *)
Definition cycloid_equation (ratio : R) : R -> R :=
  fun th => (th - sin th) - ratio * (1 - cos th).

(** The five values that the two branches of [calculate_paths] assign. *)
Record branch_values : Type := mkBranch {
  a_line : R;
  t_line : R;
  t_cycloid : R;
  r_cycloid : ext;
  theta_b_cycloid : R
}.

(** The sampled curve of the [else] branch at line 90. *)
Definition sample_cycloid (xa ya dx r theta_b : R) : list point :=
  let direction := np_sign dx in
  let thetas := np_linspace 0 theta_b 100 in
  let cycloid_x := map (fun th => xa + direction * r * (th - sin th)) thetas in
  let cycloid_y := map (fun th => ya + r * (1 - cos th)) thetas in
  combine cycloid_x cycloid_y.

Section PathSolver.

(** [fsolve func x0]: the first component of the array SciPy returns, or
    the exception the call raises. *)
Variable fsolve : (R -> R) -> R -> outcome R.

(** The [try] block of lines 77-85.  [None] stands for the [return None]
    of the handler. *)
Definition solve_cycloid (a_line t_line dy ratio : R)
  : outcome (option branch_values) :=
  try_except
    (theta_b <- fsolve (cycloid_equation ratio) PI ;;
     r <- py_div dy (1 - cos theta_b) ;;
     q <- py_div r G ;;
     s <- math_sqrt q ;;
     Return (Some (mkBranch a_line t_line (theta_b * s) (Fin r) theta_b)))
    (Return None).

Definition calculate_paths (A B : point) : outcome (option PathSolution) :=
  let '(xa, ya) := A in
  let '(xb, yb) := B in
  let dx := xb - xa in
  let dy := yb - ya in
  if Rle_dec dy 0 then Return None else
  L <- math_sqrt (dx ^ 2 + dy ^ 2) ;;
  br <- (if Rlt_dec (Rabs dx) 1 then
           let a_line := G in
           q <- py_div (2 * L) a_line ;;
           t_line <- math_sqrt q ;;
           Return (Some (mkBranch a_line t_line t_line PInf 0))
         else
           a_line <- py_div (G * dy) L ;;
           q <- py_div (2 * L) a_line ;;
           t_line <- math_sqrt q ;;
           let abs_dx := Rabs dx in
           ratio <- py_div abs_dx dy ;;
           solve_cycloid a_line t_line dy ratio) ;;
  match br with
  | None => Return None
  | Some v =>
      let line_points := [A; B] in
      let cycloid_points :=
        match r_cycloid v with
        | PInf => line_points
        | Fin r => sample_cycloid xa ya dx r (theta_b_cycloid v)
        end in
      Return (Some (mkPathSolution A B dx dy L (a_line v) (t_line v)
                      line_points (r_cycloid v) (theta_b_cycloid v)
                      (t_cycloid v) cycloid_points))
  end.

End PathSolver.

(** ** The simulation state of [main]

    [main] keeps its state in local variables.  The record below holds the
    ones the "Simulation Update" block reads or writes.  They all receive a
    value when the state becomes ['simulate'] (lines 250-257), so none of
    them is optional here. *)

Inductive app_state : Set :=
  | pick_a
  | pick_b
  | simulate
  | results.

Record Sim : Type := mkSim {
  state : app_state;
  point_a_world : point;
  point_b_world : point;
  sim_data : PathSolution;
  sim_time : R;
  line_finished : bool;
  cycloid_finished : bool;
  pos_line_world : point;
  pos_cycloid_world : point
}.

Definition set_state (s : app_state) (st : Sim) : Sim :=
  mkSim s (point_a_world st) (point_b_world st) (sim_data st) (sim_time st)
    (line_finished st) (cycloid_finished st)
    (pos_line_world st) (pos_cycloid_world st).

Definition set_sim_time (t : R) (st : Sim) : Sim :=
  mkSim (state st) (point_a_world st) (point_b_world st) (sim_data st) t
    (line_finished st) (cycloid_finished st)
    (pos_line_world st) (pos_cycloid_world st).

(** Assignments to [pos_line_world] and [line_finished], and to their
    cycloid counterparts. *)
Definition set_line (p : point) (fin : bool) (st : Sim) : Sim :=
  mkSim (state st) (point_a_world st) (point_b_world st) (sim_data st)
    (sim_time st) fin (cycloid_finished st) p (pos_cycloid_world st).

Definition set_cycloid (p : point) (fin : bool) (st : Sim) : Sim :=
  mkSim (state st) (point_a_world st) (point_b_world st) (sim_data st)
    (sim_time st) (line_finished st) fin (pos_line_world st) p.

(** Lines 252-257: the state right after a solution was accepted. *)
Definition release (A B : point) (sd : PathSolution) : Sim :=
  mkSim simulate A B sd 0 false false A A.

(** Lines 331-342, "Update Line Bead". *)
Definition update_line_bead (st : Sim) : outcome Sim :=
  if line_finished st then Return st else
  let t := line_t (sim_data st) in
  if Rlt_dec (sim_time st) t then
    let dist := 0.5 * line_a (sim_data st) * sim_time st ^ 2 in
    frac <- py_div dist (line_L (sim_data st)) ;;
    Return (set_line (fst (point_a_world st) + frac * sol_dx (sim_data st),
                      snd (point_a_world st) + frac * sol_dy (sim_data st))
                     (line_finished st) st)
  else
    Return (set_line (point_b_world st) true st).

(** Lines 345-367, "Update Cycloid Bead". *)
Definition update_cycloid_bead (st : Sim) : outcome Sim :=
  if cycloid_finished st then Return st else
  let t := cycloid_t (sim_data st) in
  if Rlt_dec (sim_time st) t then
    match cycloid_r (sim_data st) with
    | PInf =>
        let dist := 0.5 * G * sim_time st ^ 2 in
        frac <- py_div dist (sol_dy (sim_data st)) ;;
        Return (set_cycloid (fst (point_a_world st),
                             snd (point_a_world st)
                               + frac * sol_dy (sim_data st))
                            (cycloid_finished st) st)
    | Fin r =>
        q <- py_div r G ;;
        s <- math_sqrt q ;;
        theta_t <- py_div (sim_time st) s ;;
        let direction := np_sign (sol_dx (sim_data st)) in
        Return (set_cycloid
                  (fst (point_a_world st)
                     + direction * r * (theta_t - sin theta_t),
                   snd (point_a_world st) + r * (1 - cos theta_t))
                  (cycloid_finished st) st)
    end
  else
    Return (set_cycloid (point_b_world st) true st).

(** Lines 326-370: one pass through the update block, [dt] seconds after
    the previous one. *)
Definition simulation_update (dt : R) (st : Sim) : outcome Sim :=
  match state st with
  | simulate =>
      let st := set_sim_time (sim_time st + dt) st in
      st <- update_line_bead st ;;
      st <- update_cycloid_bead st ;;
      if line_finished st && cycloid_finished st
      then Return (set_state results st)
      else Return st
  | _ => Return st
  end.

(** Successive passes of the main loop. *)
Fixpoint run_ticks (dts : list R) (st : Sim) : outcome Sim :=
  match dts with
  | [] => Return st
  | dt :: dts' => st' <- simulation_update dt st ;; run_ticks dts' st'
  end.

(** The position query of the specification: the beads of a solution [sd]
    at elapsed time [t], that is, the first update after the release, [t]
    seconds later. *)
Definition sampleAt (sd : PathSolution) (t : R) : outcome Sim :=
  simulation_update t (release (sol_A sd) (sol_B sd) sd).

(** Horizontal mirror image about the vertical line through [A]. *)
Definition mirror (A : point) (p : point) : point :=
  (2 * fst A - fst p, snd p).

Section Main.

Variable fsolve : (R -> R) -> R -> outcome R.

(** Lines 243-260: the click that chooses point B. *)
Definition pick_point_b (A B : point) : outcome (option Sim) :=
  if Rle_dec (snd B) (snd A) then Return None else
  sd <- calculate_paths fsolve A B ;;
  match sd with
  | Some d => Return (Some (release A B d))
  | None => Return None
  end.

End Main.

(** ** Screen and world coordinates

    Pixels, mouse positions and the camera offset are Python integers;
    world points are floats. *)

Definition pixel : Set := (Z * Z)%type.

(** [int(x)] for a float [x]: truncation towards zero. *)
Definition py_int (x : R) : Z :=
  if Rle_dec 0 x then Int_part x else (- Int_part (- x))%Z.

(** Lines 28-32. *)
Definition world_to_screen (world_pos : point) (zoom : R) (offset : pixel)
  : pixel :=
  let screen_x := py_int (fst world_pos * zoom + IZR (fst offset)) in
  let screen_y := py_int (snd world_pos * zoom + IZR (snd offset)) in
  (screen_x, screen_y).

(** Lines 34-38. *)
Definition screen_to_world (screen_pos : pixel) (zoom : R) (offset : pixel)
  : outcome point :=
  world_x <- py_div (IZR (fst screen_pos - fst offset)) zoom ;;
  world_y <- py_div (IZR (snd screen_pos - snd offset)) zoom ;;
  Return (world_x, world_y).

(** ** Layout of the window (lines 180-207)

    [pygame.Rect(left, top, width, height)]; [collidepoint] holds of the
    points inside, the right and bottom edges excluded.  [//] is floor
    division, as [Z.div] is for a positive divisor. *)

Record Rect : Set := mkRect {
  rect_left : Z;
  rect_top : Z;
  rect_width : Z;
  rect_height : Z
}.

Definition collidepoint (r : Rect) (p : pixel) : bool :=
  ((rect_left r <=? fst p) && (fst p <? rect_left r + rect_width r)
   && (rect_top r <=? snd p) && (snd p <? rect_top r + rect_height r))%Z.

Definition BUTTON_WIDTH : Z := 150.
Definition BUTTON_HEIGHT : Z := 50.

Definition RESET_BUTTON_RECT (screen_width screen_height : Z) : Rect :=
  mkRect ((screen_width - BUTTON_WIDTH) / 2)%Z
         (screen_height - BUTTON_HEIGHT - 30)%Z
         BUTTON_WIDTH
         BUTTON_HEIGHT.

(** [subtitle_w] is the width [font_subtitle.size] reports for the
    subtitle. *)
Definition click_area_rect (screen_width screen_height subtitle_w : Z)
  : Rect :=
  let reset_top := rect_top (RESET_BUTTON_RECT screen_width screen_height) in
  let click_area_w := subtitle_w in
  let available_h := Z.max 150 (reset_top - 120) in
  let click_area_h := py_int (IZR available_h * 0.9) in
  let click_area_top :=
    py_int (IZR (80 + reset_top) / 2 - IZR click_area_h / 2) in
  mkRect ((screen_width - click_area_w) / 2)%Z
         click_area_top
         click_area_w
         click_area_h.

(** ** Events and the state of the main loop

    The three stages before, during and after the choice of the points
    carry the variables that have a value in them: nothing in ['pick_a'],
    [point_a_world] in ['pick_b'], and the simulation record in
    ['simulate'] and ['results'] (its field [state] tells which). *)

Inductive key : Set :=
  | K_ESCAPE
  | K_q
  | K_0
  | K_KP_PLUS
  | K_KP_MINUS
  | K_other.

Inductive event : Set :=
  | QUIT
  | MOUSEBUTTONDOWN (button : Z)
  | MOUSEBUTTONUP (button : Z)
  | MOUSEMOTION (rel : pixel)
  | MOUSEWHEEL (y : Z)
  | KEYDOWN (k : key) (unicode : string)
  | VIDEORESIZE (w h : Z)
  | OTHER_EVENT.

Inductive phase : Type :=
  | PickA
  | PickB (point_a_world : point)
  | Simulating (sim : Sim).

Record App : Type := mkApp {
  running : bool;
  app_phase : phase;
  zoom : R;
  offset : pixel;
  panning : bool
}.

(** Lines 160-177. *)
Definition initial_app : App := mkApp true PickA 1 (0, 0)%Z false.

Definition set_running (b : bool) (app : App) : App :=
  mkApp b (app_phase app) (zoom app) (offset app) (panning app).

Definition set_phase (p : phase) (app : App) : App :=
  mkApp (running app) p (zoom app) (offset app) (panning app).

Definition set_camera (z : R) (o : pixel) (app : App) : App :=
  mkApp (running app) (app_phase app) z o (panning app).

Definition set_panning (b : bool) (app : App) : App :=
  mkApp (running app) (app_phase app) (zoom app) (offset app) b.

(** Lines 273-285, and again 303-308 and 312-317: scale the zoom by
    [factor], not below 0.1, then shift the offset by the distance between
    the cursor and the new place of the world point that was under it. *)
Definition zoom_about (mouse_pos_screen : pixel) (factor : R) (app : App)
  : outcome App :=
  world_pos_before_zoom <-
    screen_to_world mouse_pos_screen (zoom app) (offset app) ;;
  let zoom' := Rmax 0.1 (zoom app * factor) in
  let screen_pos_after_zoom :=
    world_to_screen world_pos_before_zoom zoom' (offset app) in
  Return (set_camera zoom'
            (fst (offset app)
               + (fst mouse_pos_screen - fst screen_pos_after_zoom),
             snd (offset app)
               + (snd mouse_pos_screen - snd screen_pos_after_zoom))%Z
            app).

Section EventLoop.

Variable fsolve : (R -> R) -> R -> outcome R.

(** Lines 239-260: a left click at [click_pos_world], in the click area. *)
Definition sim_click (click_pos_world : point) (app : App) : outcome App :=
  match app_phase app with
  | PickA => Return (set_phase (PickB click_pos_world) app)
  | PickB point_a_world =>
      started <- pick_point_b fsolve point_a_world click_pos_world ;;
      match started with
      | Some sim => Return (set_phase (Simulating sim) app)
      | None => Return app
      end
  | Simulating _ => Return app
  end.

(** Lines 212-323: one event.  [reset_rect] and [click_rect] are the two
    rectangles of the frame and [mouse_pos_screen] the cursor read at its
    start. *)
Definition handle_event (reset_rect click_rect : Rect)
  (mouse_pos_screen : pixel) (ev : event) (app : App) : outcome App :=
  match ev with
  | QUIT => Return (set_running false app)
  | MOUSEBUTTONDOWN button =>
      if (button =? 3)%Z then Return (set_panning true app)
      else if (button =? 1)%Z then
        if collidepoint reset_rect mouse_pos_screen then
          Return (set_camera 1 (0, 0)%Z (set_phase PickA app))
        else if negb (collidepoint click_rect mouse_pos_screen) then
          Return app
        else
          click_pos_world <-
            screen_to_world mouse_pos_screen (zoom app) (offset app) ;;
          sim_click click_pos_world app
      else Return app
  | MOUSEBUTTONUP button =>
      if (button =? 3)%Z then Return (set_panning false app) else Return app
  | MOUSEMOTION rel =>
      if panning app then
        Return (set_camera (zoom app)
                  (fst (offset app) + fst rel, snd (offset app) + snd rel)%Z
                  app)
      else Return app
  | MOUSEWHEEL y =>
      zoom_about mouse_pos_screen (if (0 <? y)%Z then 1.1 else 0.9) app
  | KEYDOWN k ch =>
      match k with
      | K_ESCAPE | K_q => Return (set_running false app)
      | K_0 => Return (set_camera 1 (0, 0)%Z app)
      | _ =>
          if String.eqb ch "+" || String.eqb ch "="
             || match k with K_KP_PLUS => true | _ => false end
          then zoom_about mouse_pos_screen 1.1 app
          else if String.eqb ch "-"
                  || match k with K_KP_MINUS => true | _ => false end
          then zoom_about mouse_pos_screen 0.9 app
          else Return app
      end
  | VIDEORESIZE _ _ => Return app
  | OTHER_EVENT => Return app
  end.

Fixpoint handle_events (reset_rect click_rect : Rect)
  (mouse_pos_screen : pixel) (evs : list event) (app : App) : outcome App :=
  match evs with
  | [] => Return app
  | ev :: evs' =>
      app' <- handle_event reset_rect click_rect mouse_pos_screen ev app ;;
      handle_events reset_rect click_rect mouse_pos_screen evs' app'
  end.

(** What one pass of the [while] loop reads from pygame: the window size,
    the width of the subtitle, the cursor, the pending events and the
    milliseconds of [clock.get_time()]. *)
Record frame_input : Set := mkFrame {
  screen_size : pixel;
  subtitle_w : Z;
  mouse_pos : pixel;
  events : list event;
  clock_time : Z
}.

(** Lines 179-370: one pass of the loop, drawing left out. *)
Definition frame (inp : frame_input) (app : App) : outcome App :=
  let '(screen_width, screen_height) := screen_size inp in
  let reset_rect := RESET_BUTTON_RECT screen_width screen_height in
  let click_rect :=
    click_area_rect screen_width screen_height (subtitle_w inp) in
  app <- handle_events reset_rect click_rect (mouse_pos inp) (events inp)
           app ;;
  match app_phase app with
  | Simulating sim =>
      let dt := IZR (clock_time inp) / 1000 in
      sim' <- simulation_update dt sim ;;
      Return (set_phase (Simulating sim') app)
  | _ => Return app
  end.

(** [while running: ...] over the frames that pygame delivers. *)
Fixpoint main_loop (inputs : list frame_input) (app : App) : outcome App :=
  match inputs with
  | [] => Return app
  | inp :: inputs' =>
      if running app
      then app' <- frame inp app ;; main_loop inputs' app'
      else Return app
  end.

End EventLoop.

(** The values of the general branch for a root [th]. *)
Definition general_solution (A B : point) (th : R) : PathSolution :=
  let dx := fst B - fst A in
  let dy := snd B - snd A in
  let L := sqrt (dx ^ 2 + dy ^ 2) in
  let r := dy / (1 - cos th) in
  mkPathSolution A B dx dy L (G * dy / L) (sqrt (2 * L / (G * dy / L)))
    [A; B] (Fin r) th (th * sqrt (r / G))
    (sample_cycloid (fst A) (snd A) dx r th).

(** The values of the near-vertical branch. *)
Definition vertical_solution (A B : point) : PathSolution :=
  let dx := fst B - fst A in
  let dy := snd B - snd A in
  let L := sqrt (dx ^ 2 + dy ^ 2) in
  mkPathSolution A B dx dy L G (sqrt (2 * L / G))
    [A; B] PInf 0 (sqrt (2 * L / G)) [A; B].

(** ** How SciPy's [fsolve] ends

    [fsolve(func, x0)] runs MINPACK's hybrd, which stops with an iterate
    and a status flag: 1 when it judges that the iteration has converged, 2
    when the cap on the number of function evaluations is reached, 3 to 5
    when the tolerance is too small or the iteration makes no progress.
    Called as at line 78, without [full_output], [fsolve] returns the
    iterate for the flags 1 to 5, with a [RuntimeWarning] (a warning, not
    an exception) for 2 to 5, and raises [TypeError] for any other flag. *)




(** ** The update block on IEEE doubles

    The operations of lines 326-367 that can raise, on binary64 floats:
    [x ** 2] raises [OverflowError] when the square of a finite [x] is
    infinite (the square is taken as the correctly rounded product);
    float [/] raises [ZeroDivisionError] when the divisor is zero; the
    [math] functions go through CPython's wrapper [math_1], which raises
    [ValueError] when the C function returns NaN for an argument that is
    not NaN, or an infinity for a finite argument.  The C functions [sin]
    and [cos] themselves are variables. *)


















Section Sampler64.

(** The C library's [sin] and [cos]. *)
Variables libm_sin libm_cos : float -> float.






End Sampler64.

(** What the update block relies on, and what every solution returned by
    the solver provides. *)
Definition solution_ok (s : PathSolution) : Prop :=
  0 < sol_dy s /\ 0 < line_L s /\ 0 < line_a s /\ 0 < line_t s /\
  match cycloid_r s with
  | Fin r => 0 < r
  | PInf => cycloid_t s = line_t s
  end.

(** The bead of the straight path in flight, [t] seconds after release. *)
Definition line_flight (st : Sim) (t : R) : point :=
  let frac := 0.5 * line_a (sim_data st) * t ^ 2 / line_L (sim_data st) in
  (fst (point_a_world st) + frac * sol_dx (sim_data st),
   snd (point_a_world st) + frac * sol_dy (sim_data st)).

(** The bead of the cycloid in flight: vertical drop or rolling circle. *)
Definition cycloid_flight (st : Sim) (t : R) : point :=
  match cycloid_r (sim_data st) with
  | PInf =>
      let frac := 0.5 * G * t ^ 2 / sol_dy (sim_data st) in
      (fst (point_a_world st),
       snd (point_a_world st) + frac * sol_dy (sim_data st))
  | Fin r =>
      let theta_t := t / sqrt (r / G) in
      (fst (point_a_world st)
         + np_sign (sol_dx (sim_data st)) * r * (theta_t - sin theta_t),
       snd (point_a_world st) + r * (1 - cos theta_t))
  end.

(** What holds of every state of a running simulation: the state variable
    is ['results'] exactly when both beads have arrived. *)
Definition phase_consistent (st : Sim) : Prop :=
  (state st = results /\
   line_finished st = true /\ cycloid_finished st = true) \/
  (state st = simulate /\
   (line_finished st = false \/ cycloid_finished st = false)).

(** What the main loop keeps true of its state: a zoom of at least 0.1 and,
    while a simulation runs, a sound solution. *)
Definition app_ok (app : App) : Prop :=
  0.1 <= zoom app /\
  match app_phase app with
  | Simulating sim => solution_ok (sim_data sim)
  | _ => True
  end.

(** A state of the simulation of [s] between A and B at elapsed time [t]:
    the clock shows [t] while the state is ['simulate'], and a bead that
    has arrived is at B, [t] being at or past its travel time. *)
Definition in_step (s : PathSolution) (A B : point) (st : Sim) (t : R)
  : Prop :=
  sim_data st = s /\ point_a_world st = A /\ point_b_world st = B /\
  (state st = simulate \/ state st = results) /\
  (state st = simulate -> sim_time st = t) /\
  (state st = results ->
   line_finished st = true /\ cycloid_finished st = true) /\
  (line_finished st = true -> line_t s <= t /\ pos_line_world st = B) /\
  (cycloid_finished st = true ->
   cycloid_t s <= t /\ pos_cycloid_world st = B).

(** Two states that show the same beads, flags and state variable. *)
Definition same_picture (st1 st2 : Sim) : Prop :=
  pos_line_world st1 = pos_line_world st2 /\
  pos_cycloid_world st1 = pos_cycloid_world st2 /\
  line_finished st1 = line_finished st2 /\
  cycloid_finished st1 = cycloid_finished st2 /\
  state st1 = state st2.

(** Translation of a point by a vector. *)
Definition translate (v : point) (p : point) : point :=
  (fst p + fst v, snd p + snd v).

(** ** Sample data

    Three root finders and two pairs of points, used to instantiate the
    statements below.  For [A = (0, 0)] and [B = (PI, 2)] the ratio is
    [PI / 2] and [PI] is the root: the curve is half an arch of radius 1. *)

Definition finder_pi : (R -> R) -> R -> outcome R :=
  fun _ _ => Return PI.

Definition finder_zero : (R -> R) -> R -> outcome R :=
  fun _ _ => Return 0.


Definition origin : point := (0, 0).

Definition half_arch_end : point := (PI, 2).

(** A camera being dragged, a simulation in progress on the half arch, and
    three frames of a window of 1100 by 700 pixels. *)

Definition dragging_app : App := set_panning true initial_app.

Definition half_arch_app : App :=
  set_phase
    (Simulating
       (release origin half_arch_end
          (general_solution origin half_arch_end PI)))
    initial_app.

Definition wheel_frame : frame_input :=
  mkFrame (1100, 700)%Z 900%Z (300, 200)%Z
    [MOUSEWHEEL 1; MOUSEBUTTONDOWN 3; MOUSEMOTION (5, -3)%Z] 16%Z.

Definition quit_frame : frame_input :=
  mkFrame (1100, 700)%Z 900%Z (300, 200)%Z [QUIT] 16%Z.

Definition pan_frame : frame_input :=
  mkFrame (1100, 700)%Z 900%Z (300, 200)%Z
    [MOUSEBUTTONDOWN 3; MOUSEMOTION (5, -3)%Z] 16%Z.


(** A run of the finder that makes no progress from its seed and stops
    with flag 5; and, on doubles, the solution of the vertical drop from
    (0, 0) to (0, 500) as lines 57-68 and 87-89 compute it. *)



(** * Properties *)

(** ** Python primitives *)

Lemma py_div_ok (x y : R) : y <> 0 -> py_div x y = Return (x / y).
Proof.
  intros Hy. unfold py_div. destruct (Req_dec_T y 0); [contradiction | reflexivity].
Qed.

Lemma py_div_zero (x : R) : py_div x 0 = Raise ZeroDivisionError.
Proof.
  unfold py_div. destruct (Req_dec_T 0 0); [reflexivity | contradiction].
Qed.

Lemma math_sqrt_ok (x : R) : 0 <= x -> math_sqrt x = Return (sqrt x).
Proof.
  intros Hx. unfold math_sqrt. destruct (Rlt_dec x 0); [lra | reflexivity].
Qed.

Lemma np_sign_pos (x : R) : 0 < x -> np_sign x = 1.
Proof.
  intros Hx. unfold np_sign.
  destruct (Rlt_dec x 0); [lra |]. destruct (Rlt_dec 0 x); [reflexivity | lra].
Qed.

Lemma np_sign_neg (x : R) : x < 0 -> np_sign x = -1.
Proof.
  intros Hx. unfold np_sign. destruct (Rlt_dec x 0); [reflexivity | lra].
Qed.

Lemma np_sign_opp (x : R) : np_sign (- x) = - np_sign x.
Proof.
  unfold np_sign.
  destruct (Rlt_dec (- x) 0), (Rlt_dec x 0), (Rlt_dec 0 (- x)), (Rlt_dec 0 x);
    lra.
Qed.

Lemma np_sign_abs (x : R) : np_sign x * Rabs x = x.
Proof.
  unfold np_sign, Rabs.
  destruct (Rlt_dec x 0), (Rcase_abs x), (Rlt_dec 0 x); lra.
Qed.

Lemma G_pos : 0 < G.
Proof. unfold G. lra. Qed.

(** ** Geometry of a valid pair of points *)

Lemma squares_nonneg (dx dy : R) : 0 <= dx ^ 2 + dy ^ 2.
Proof.
  pose proof (pow2_ge_0 dx). pose proof (pow2_ge_0 dy). lra.
Qed.

Lemma length_pos (dx dy : R) : 0 < dy -> 0 < sqrt (dx ^ 2 + dy ^ 2).
Proof.
  intros Hdy. apply sqrt_lt_R0.
  pose proof (pow2_ge_0 dx). assert (0 < dy ^ 2) by (apply pow_lt; exact Hdy). lra.
Qed.

Lemma incline_acceleration_pos (dx dy : R) :
  0 < dy -> 0 < G * dy / sqrt (dx ^ 2 + dy ^ 2).
Proof.
  intros Hdy. apply Rdiv_lt_0_compat.
  - apply Rmult_lt_0_compat; [apply G_pos | exact Hdy].
  - apply length_pos; exact Hdy.
Qed.

Lemma one_minus_cos_pos (th : R) : cos th <> 1 -> 0 < 1 - cos th.
Proof.
  intros Hc. destruct (COS_bound th) as [_ Hle]. lra.
Qed.

Lemma radius_pos (dy th : R) : 0 < dy -> cos th <> 1 -> 0 < dy / (1 - cos th).
Proof.
  intros Hdy Hc. apply Rdiv_lt_0_compat; [exact Hdy | apply one_minus_cos_pos; exact Hc].
Qed.

(** ** Evaluation of [calculate_paths], branch by branch *)

Section SolverFacts.

Variable fsolve : (R -> R) -> R -> outcome R.

Lemma solve_not_below (A B : point) :
  snd B - snd A <= 0 -> calculate_paths fsolve A B = Return None.
Proof.
  destruct A as [xa ya], B as [xb yb]; cbn [fst snd]. intros Hdy.
  unfold calculate_paths. destruct (Rle_dec (yb - ya) 0); [reflexivity | lra].
Qed.

Lemma solve_vertical (A B : point) :
  0 < snd B - snd A -> Rabs (fst B - fst A) < 1 ->
  calculate_paths fsolve A B = Return (Some (vertical_solution A B)).
Proof.
  destruct A as [xa ya], B as [xb yb]; cbn [fst snd]. intros Hdy Hdx.
  pose proof (length_pos (xb - xa) _ Hdy) as HL.
  pose proof G_pos as HG.
  unfold calculate_paths, vertical_solution; cbn [fst snd]; cbv zeta.
  destruct (Rle_dec (yb - ya) 0); [lra |].
  rewrite math_sqrt_ok by (apply squares_nonneg). cbn [bind].
  destruct (Rlt_dec (Rabs (xb - xa)) 1); [| lra].
  rewrite py_div_ok by lra. cbn [bind].
  rewrite math_sqrt_ok; [reflexivity |].
  apply Rlt_le, Rdiv_lt_0_compat; lra.
Qed.

(** Everything up to the [try] block succeeds in the general branch. *)
Lemma solve_general (A B : point) :
  let dx := fst B - fst A in
  let dy := snd B - snd A in
  let L := sqrt (dx ^ 2 + dy ^ 2) in
  0 < dy -> 1 <= Rabs dx ->
  calculate_paths fsolve A B =
    (br <- solve_cycloid fsolve (G * dy / L) (sqrt (2 * L / (G * dy / L)))
             dy (Rabs dx / dy) ;;
     match br with
     | None => Return None
     | Some v =>
         Return (Some (mkPathSolution A B dx dy L (a_line v) (t_line v)
                         [A; B] (r_cycloid v) (theta_b_cycloid v) (t_cycloid v)
                         match r_cycloid v with
                         | PInf => [A; B]
                         | Fin r => sample_cycloid (fst A) (snd A) dx r
                                      (theta_b_cycloid v)
                         end))
     end).
Proof.
  destruct A as [xa ya], B as [xb yb]; cbn [fst snd]. intros Hdy Hdx.
  pose proof (length_pos (xb - xa) _ Hdy) as HL.
  pose proof (incline_acceleration_pos (xb - xa) _ Hdy) as Ha.
  unfold calculate_paths; cbv zeta.
  destruct (Rle_dec (yb - ya) 0); [lra |].
  rewrite math_sqrt_ok by (apply squares_nonneg). cbn [bind].
  destruct (Rlt_dec (Rabs (xb - xa)) 1); [lra |].
  rewrite (py_div_ok (G * (yb - ya))) by lra. cbn [bind].
  rewrite (py_div_ok (2 * _)) by lra. cbn [bind].
  rewrite math_sqrt_ok by (apply Rlt_le, Rdiv_lt_0_compat; lra). cbn [bind].
  rewrite py_div_ok by lra. cbn [bind].
  reflexivity.
Qed.

Lemma solve_cycloid_root (a t dy ratio th : R) :
  0 < dy ->
  fsolve (cycloid_equation ratio) PI = Return th -> cos th <> 1 ->
  solve_cycloid fsolve a t dy ratio =
    Return (Some (mkBranch a t (th * sqrt (dy / (1 - cos th) / G))
                    (Fin (dy / (1 - cos th))) th)).
Proof.
  intros Hdy Hth Hc. unfold solve_cycloid. rewrite Hth. cbn [bind].
  pose proof (radius_pos dy th Hdy Hc) as Hr. pose proof G_pos as HG.
  rewrite py_div_ok by lra. cbn [bind].
  rewrite py_div_ok by lra. cbn [bind].
  rewrite math_sqrt_ok by (apply Rlt_le, Rdiv_lt_0_compat; lra).
  reflexivity.
Qed.

Lemma solve_cycloid_flat (a t dy ratio th : R) :
  fsolve (cycloid_equation ratio) PI = Return th -> cos th = 1 ->
  solve_cycloid fsolve a t dy ratio = Raise ZeroDivisionError.
Proof.
  intros Hth Hc. unfold solve_cycloid. rewrite Hth. cbn [bind].
  rewrite Hc. replace (1 - 1) with 0 by ring. rewrite py_div_zero. reflexivity.
Qed.

Lemma solve_cycloid_raise (a t dy ratio : R) (e : exn) :
  fsolve (cycloid_equation ratio) PI = Raise e ->
  solve_cycloid fsolve a t dy ratio =
    match e with
    | RuntimeError | ValueError => Return None
    | _ => Raise e
    end.
Proof.
  intros He. unfold solve_cycloid. rewrite He. destruct e; reflexivity.
Qed.

Lemma solve_general_root (A B : point) (th : R) :
  0 < snd B - snd A -> 1 <= Rabs (fst B - fst A) ->
  fsolve (cycloid_equation (Rabs (fst B - fst A) / (snd B - snd A))) PI
    = Return th ->
  cos th <> 1 ->
  calculate_paths fsolve A B = Return (Some (general_solution A B th)).
Proof.
  intros Hdy Hdx Hth Hc.
  rewrite solve_general by assumption.
  rewrite (solve_cycloid_root _ _ _ _ th) by assumption.
  reflexivity.
Qed.

(** The other outcomes of the general branch.  A finder that returns an
    angle with [cos th = 1] (the trivial root 0 is one) makes line 82 divide
    by zero, and [ZeroDivisionError] is not among the handled exceptions. *)
Lemma solve_general_flat (A B : point) (th : R) :
  0 < snd B - snd A -> 1 <= Rabs (fst B - fst A) ->
  fsolve (cycloid_equation (Rabs (fst B - fst A) / (snd B - snd A))) PI
    = Return th ->
  cos th = 1 ->
  calculate_paths fsolve A B = Raise ZeroDivisionError.
Proof.
  intros Hdy Hdx Hth Hc.
  rewrite solve_general by assumption.
  rewrite (solve_cycloid_flat _ _ _ _ th) by assumption.
  reflexivity.
Qed.


(** Whatever [fsolve] does, a solution that is returned is one of the two
    above. *)
Lemma solve_some_inv (A B : point) (s : PathSolution) :
  calculate_paths fsolve A B = Return (Some s) ->
  0 < snd B - snd A /\
  ((Rabs (fst B - fst A) < 1 /\ s = vertical_solution A B) \/
   (1 <= Rabs (fst B - fst A) /\
    exists th,
      fsolve (cycloid_equation (Rabs (fst B - fst A) / (snd B - snd A))) PI
        = Return th /\
      cos th <> 1 /\ s = general_solution A B th)).
Proof.
  intros Hs.
  destruct (Rle_dec (snd B - snd A) 0) as [Hle | Hgt].
  { rewrite solve_not_below in Hs by exact Hle. discriminate. }
  split; [lra |].
  destruct (Rlt_dec (Rabs (fst B - fst A)) 1) as [Hv | Hg].
  - left. split; [exact Hv |].
    rewrite solve_vertical in Hs by lra. congruence.
  - right. split; [lra |].
    rewrite solve_general in Hs by lra.
    set (ratio := Rabs (fst B - fst A) / (snd B - snd A)) in *.
    destruct (fsolve (cycloid_equation ratio) PI) as [th | e] eqn:Hf.
    + exists th. split; [reflexivity |].
      destruct (Req_dec_T (cos th) 1) as [Hc | Hc].
      * rewrite (solve_cycloid_flat _ _ _ _ th) in Hs by assumption.
        discriminate.
      * split; [exact Hc |].
        rewrite (solve_cycloid_root _ _ _ _ th) in Hs by (assumption || lra).
        cbn [bind r_cycloid a_line t_line t_cycloid theta_b_cycloid] in Hs.
        unfold general_solution. congruence.
    + rewrite (solve_cycloid_raise _ _ _ _ e) in Hs by assumption.
      destruct e; discriminate.
Qed.

End SolverFacts.

(** ** Facts about the sample data *)

Lemma PI_gt_2 : 2 < PI.
Proof. pose proof PI2_1. lra. Qed.

Lemma half_arch_below : 0 < snd half_arch_end - snd origin.
Proof. cbn [snd half_arch_end origin]. lra. Qed.

Lemma half_arch_wide : 1 <= Rabs (fst half_arch_end - fst origin).
Proof.
  cbn [fst half_arch_end origin]. pose proof PI_gt_2.
  rewrite Rabs_right; lra.
Qed.

Lemma half_arch_ratio :
  Rabs (fst half_arch_end - fst origin) / (snd half_arch_end - snd origin)
  = PI / 2.
Proof.
  cbn [fst snd half_arch_end origin]. pose proof PI_gt_2.
  rewrite Rabs_right by lra. f_equal; ring.
Qed.

Lemma cos_PI_neq_1 : cos PI <> 1.
Proof. rewrite cos_PI. lra. Qed.

Lemma half_arch_root :
  cycloid_equation
    (Rabs (fst half_arch_end - fst origin) / (snd half_arch_end - snd origin))
    PI = 0.
Proof.
  rewrite half_arch_ratio. unfold cycloid_equation.
  rewrite sin_PI, cos_PI. field.
Qed.

(** A finder that lands on the trivial root: the exception escapes. *)
Example trivial_root_escapes :
  calculate_paths finder_zero (0, 0) (300, 400) = Raise ZeroDivisionError.
Proof.
  apply (solve_general_flat finder_zero (0, 0) (300, 400) 0); cbn [fst snd].
  - lra.
  - rewrite Rabs_right; lra.
  - reflexivity.
  - exact cos_0.
Qed.

(** ** The path solver *)

Section SolverClaims.

Variable fsolve : (R -> R) -> R -> outcome R.

(** C3.  When B is not strictly below A ([dy <= 0]) the solver returns
    [None], the failure value, and therefore no solution record at all. *)
Theorem solve_invalid_geometry (A B : point) :
  snd B - snd A <= 0 ->
  calculate_paths fsolve A B = Return None /\
  forall s, calculate_paths fsolve A B <> Return (Some s).
Proof.
  intros Hdy. rewrite solve_not_below by exact Hdy.
  split; [reflexivity | intros s; discriminate].
Qed.

(** C4.  Near-vertical case ([dy > 0] and [|dx| < 1]): the solver returns a
    solution with acceleration [G], straight time [sqrt (2 L / G)], a
    cycloid time that is the same value, an infinite radius, angle 0, and
    the two end points as the polyline of both paths. *)
Theorem solve_degenerate (A B : point) :
  0 < snd B - snd A -> Rabs (fst B - fst A) < 1 ->
  exists s,
    calculate_paths fsolve A B = Return (Some s) /\
    line_L s = sqrt ((fst B - fst A) ^ 2 + (snd B - snd A) ^ 2) /\
    line_a s = G /\
    line_t s = sqrt (2 * line_L s / G) /\
    cycloid_t s = line_t s /\
    cycloid_r s = PInf /\
    cycloid_theta_b s = 0 /\
    line_points s = [A; B] /\
    cycloid_points s = line_points s.
Proof.
  intros Hdy Hdx. exists (vertical_solution A B).
  split; [apply solve_vertical; assumption |].
  unfold vertical_solution; cbn. repeat split; reflexivity.
Qed.

(** C1.  General case ([dy > 0] and [|dx| >= 1]): when the root finder
    returns [th] (with [cos th <> 1], so that the radius exists), the
    solver returns a solution with [line_a = G * dy / L],
    [line_t = sqrt (2 L / line_a)], [cycloid_r = dy / (1 - cos th)] and
    [cycloid_t = th * sqrt (cycloid_r / G)], where [L = sqrt (dx^2 + dy^2)]
    and [th] is what the finder produced for
    [(th - sin th) - (|dx| / dy) * (1 - cos th)], started at [PI]. *)
Theorem solve_general_case (A B : point) (th : R) :
  let dx := fst B - fst A in
  let dy := snd B - snd A in
  0 < dy -> 1 <= Rabs dx ->
  fsolve (fun t => (t - sin t) - Rabs dx / dy * (1 - cos t)) PI = Return th ->
  cos th <> 1 ->
  exists s r,
    calculate_paths fsolve A B = Return (Some s) /\
    line_L s = sqrt (dx ^ 2 + dy ^ 2) /\
    line_a s = G * dy / line_L s /\
    line_t s = sqrt (2 * line_L s / line_a s) /\
    cycloid_theta_b s = th /\
    cycloid_r s = Fin r /\
    r = dy / (1 - cos th) /\
    cycloid_t s = th * sqrt (r / G).
Proof.
  intros dx dy Hdy Hdx Hth Hc.
  exists (general_solution A B th), (dy / (1 - cos th)).
  split; [apply solve_general_root; assumption |].
  unfold general_solution; cbn. repeat split; reflexivity.
Qed.


End SolverClaims.

Lemma solve_invalid_geometry_witness :
  calculate_paths finder_pi (0, 0) (0, -100) = Return None /\
  forall s, calculate_paths finder_pi (0, 0) (0, -100) <> Return (Some s).
Proof.
  apply (solve_invalid_geometry finder_pi (0, 0) (0, -100)).
  cbn [snd]. lra.
Defined.

Lemma solve_degenerate_witness :
  exists s,
    calculate_paths finder_pi (0, 0) (0, 500) = Return (Some s) /\
    line_L s = sqrt ((0 - 0) ^ 2 + (500 - 0) ^ 2) /\
    line_a s = G /\
    line_t s = sqrt (2 * line_L s / G) /\
    cycloid_t s = line_t s /\
    cycloid_r s = PInf /\
    cycloid_theta_b s = 0 /\
    line_points s = [(0, 0); (0, 500)] /\
    cycloid_points s = line_points s.
Proof.
  apply (solve_degenerate finder_pi (0, 0) (0, 500)); cbn [fst snd].
  - lra.
  - rewrite Rabs_right; lra.
Defined.

Lemma solve_general_case_witness :
  exists s r,
    calculate_paths finder_pi origin half_arch_end = Return (Some s) /\
    line_L s = sqrt ((PI - 0) ^ 2 + (2 - 0) ^ 2) /\
    line_a s = G * (2 - 0) / line_L s /\
    line_t s = sqrt (2 * line_L s / line_a s) /\
    cycloid_theta_b s = PI /\
    cycloid_r s = Fin r /\
    r = (2 - 0) / (1 - cos PI) /\
    cycloid_t s = PI * sqrt (r / G).
Proof.
  apply (solve_general_case finder_pi origin half_arch_end PI).
  - exact half_arch_below.
  - exact half_arch_wide.
  - reflexivity.
  - exact cos_PI_neq_1.
Defined.



(** ** Solutions returned by the solver *)

Lemma travel_time_pos (L a : R) : 0 < L -> 0 < a -> 0 < sqrt (2 * L / a).
Proof.
  intros HL Ha. apply sqrt_lt_R0, Rdiv_lt_0_compat; lra.
Qed.

Lemma vertical_solution_ok (A B : point) :
  0 < snd B - snd A -> solution_ok (vertical_solution A B).
Proof.
  intros Hdy. pose proof (length_pos (fst B - fst A) _ Hdy) as HL.
  pose proof G_pos as HG.
  unfold solution_ok, vertical_solution;
    cbn [sol_dy line_L line_a line_t cycloid_r cycloid_t].
  repeat split; try assumption.
  apply travel_time_pos; assumption.
Qed.

Lemma general_solution_ok (A B : point) (th : R) :
  0 < snd B - snd A -> cos th <> 1 -> solution_ok (general_solution A B th).
Proof.
  intros Hdy Hc. pose proof (length_pos (fst B - fst A) _ Hdy) as HL.
  pose proof (incline_acceleration_pos (fst B - fst A) _ Hdy) as Ha.
  unfold solution_ok, general_solution;
    cbn [sol_dy line_L line_a line_t cycloid_r cycloid_t].
  repeat split; try assumption.
  - apply travel_time_pos; assumption.
  - apply radius_pos; assumption.
Qed.

Lemma solve_some_ok fsolve (A B : point) (s : PathSolution) :
  calculate_paths fsolve A B = Return (Some s) ->
  solution_ok s /\ sol_A s = A /\ sol_B s = B.
Proof.
  intros Hs. apply solve_some_inv in Hs.
  destruct Hs as [Hdy [[_ ->] | [_ [th [_ [Hc ->]]]]]].
  - split; [apply vertical_solution_ok; exact Hdy | split; reflexivity].
  - split; [apply general_solution_ok; assumption | split; reflexivity].
Qed.


(** ** One pass of the update block *)

Lemma set_line_same (st : Sim) :
  set_line (pos_line_world st) (line_finished st) st = st.
Proof. destruct st; reflexivity. Qed.

Lemma set_cycloid_same (st : Sim) :
  set_cycloid (pos_cycloid_world st) (cycloid_finished st) st = st.
Proof. destruct st; reflexivity. Qed.

Lemma update_line_bead_done (st : Sim) :
  line_finished st = true -> update_line_bead st = Return st.
Proof.
  intros Hf. unfold update_line_bead. rewrite Hf. reflexivity.
Qed.

Lemma update_line_bead_arrive (st : Sim) :
  line_finished st = false -> line_t (sim_data st) <= sim_time st ->
  update_line_bead st = Return (set_line (point_b_world st) true st).
Proof.
  intros Hf Ht. unfold update_line_bead. rewrite Hf.
  destruct (Rlt_dec (sim_time st) (line_t (sim_data st))); [lra | reflexivity].
Qed.

Lemma update_line_bead_flight (st : Sim) :
  line_finished st = false -> sim_time st < line_t (sim_data st) ->
  line_L (sim_data st) <> 0 ->
  update_line_bead st
  = Return (set_line (line_flight st (sim_time st)) false st).
Proof.
  intros Hf Ht HL. unfold update_line_bead. rewrite Hf.
  destruct (Rlt_dec (sim_time st) (line_t (sim_data st))); [| lra].
  cbv zeta. rewrite py_div_ok by exact HL. reflexivity.
Qed.

Lemma update_cycloid_bead_done (st : Sim) :
  cycloid_finished st = true -> update_cycloid_bead st = Return st.
Proof.
  intros Hf. unfold update_cycloid_bead. rewrite Hf. reflexivity.
Qed.

Lemma update_cycloid_bead_arrive (st : Sim) :
  cycloid_finished st = false -> cycloid_t (sim_data st) <= sim_time st ->
  update_cycloid_bead st = Return (set_cycloid (point_b_world st) true st).
Proof.
  intros Hf Ht. unfold update_cycloid_bead. rewrite Hf.
  destruct (Rlt_dec (sim_time st) (cycloid_t (sim_data st)));
    [lra | reflexivity].
Qed.

Lemma update_cycloid_bead_flight (st : Sim) :
  cycloid_finished st = false -> sim_time st < cycloid_t (sim_data st) ->
  solution_ok (sim_data st) ->
  update_cycloid_bead st
  = Return (set_cycloid (cycloid_flight st (sim_time st)) false st).
Proof.
  intros Hf Ht (Hdy & _ & _ & _ & Hr). pose proof G_pos as HG.
  unfold update_cycloid_bead, cycloid_flight. rewrite Hf.
  destruct (Rlt_dec (sim_time st) (cycloid_t (sim_data st))) as [_ | Hn];
    [| lra].
  destruct (cycloid_r (sim_data st)) as [r |]; cbv zeta.
  - assert (Hq : 0 < r / G) by (apply Rdiv_lt_0_compat; lra).
    pose proof (sqrt_lt_R0 _ Hq) as Hs.
    rewrite py_div_ok by lra. cbn [bind].
    rewrite math_sqrt_ok by lra. cbn [bind].
    rewrite py_div_ok by lra. reflexivity.
  - rewrite py_div_ok by lra. reflexivity.
Qed.

(** Each bead update succeeds and changes only its own position and flag. *)
Lemma update_line_bead_total (st : Sim) :
  line_L (sim_data st) <> 0 ->
  exists p f,
    update_line_bead st = Return (set_line p f st) /\
    (line_finished st = true -> f = true /\ p = pos_line_world st) /\
    (line_finished st = false -> line_t (sim_data st) <= sim_time st ->
     f = true /\ p = point_b_world st) /\
    (line_finished st = false -> sim_time st < line_t (sim_data st) ->
     f = false /\ p = line_flight st (sim_time st)).
Proof.
  intros HL. destruct (line_finished st) eqn:Hf.
  - exists (pos_line_world st), true.
    rewrite update_line_bead_done by exact Hf.
    rewrite <- Hf at 1. rewrite set_line_same.
    repeat split; intros; congruence.
  - destruct (Rlt_dec (sim_time st) (line_t (sim_data st))) as [Hlt | Hge].
    + exists (line_flight st (sim_time st)), false.
      rewrite update_line_bead_flight by assumption.
      repeat split; intros; try congruence; lra.
    + exists (point_b_world st), true.
      rewrite update_line_bead_arrive by (assumption || lra).
      repeat split; intros; try congruence; lra.
Qed.

Lemma update_cycloid_bead_total (st : Sim) :
  solution_ok (sim_data st) ->
  exists p f,
    update_cycloid_bead st = Return (set_cycloid p f st) /\
    (cycloid_finished st = true -> f = true /\ p = pos_cycloid_world st) /\
    (cycloid_finished st = false -> cycloid_t (sim_data st) <= sim_time st ->
     f = true /\ p = point_b_world st) /\
    (cycloid_finished st = false -> sim_time st < cycloid_t (sim_data st) ->
     f = false /\ p = cycloid_flight st (sim_time st)).
Proof.
  intros Hok. destruct (cycloid_finished st) eqn:Hf.
  - exists (pos_cycloid_world st), true.
    rewrite update_cycloid_bead_done by exact Hf.
    rewrite <- Hf at 1. rewrite set_cycloid_same.
    repeat split; intros; congruence.
  - destruct (Rlt_dec (sim_time st) (cycloid_t (sim_data st))) as [Hlt | Hge].
    + exists (cycloid_flight st (sim_time st)), false.
      rewrite update_cycloid_bead_flight by assumption.
      repeat split; intros; try congruence; lra.
    + exists (point_b_world st), true.
      rewrite update_cycloid_bead_arrive by (assumption || lra).
      repeat split; intros; try congruence; lra.
Qed.

(** What one pass does to a state whose solution is sound: it succeeds,
    keeps the solution and the two points, leaves an arrived bead where it
    is, and moves a bead in flight to B or along its path according to the
    new elapsed time. *)
Lemma simulation_update_summary (dt : R) (st : Sim) :
  solution_ok (sim_data st) ->
  exists st',
    simulation_update dt st = Return st' /\
    (sim_data st' = sim_data st /\
     point_a_world st' = point_a_world st /\
     point_b_world st' = point_b_world st) /\
    (line_finished st = true ->
     line_finished st' = true /\ pos_line_world st' = pos_line_world st) /\
    (cycloid_finished st = true ->
     cycloid_finished st' = true /\
     pos_cycloid_world st' = pos_cycloid_world st) /\
    (state st = simulate -> line_finished st = false ->
     (line_t (sim_data st) <= sim_time st + dt ->
      line_finished st' = true /\ pos_line_world st' = point_b_world st) /\
     (sim_time st + dt < line_t (sim_data st) ->
      line_finished st' = false /\
      pos_line_world st' = line_flight st (sim_time st + dt))) /\
    (state st = simulate -> cycloid_finished st = false ->
     (cycloid_t (sim_data st) <= sim_time st + dt ->
      cycloid_finished st' = true /\ pos_cycloid_world st' = point_b_world st) /\
     (sim_time st + dt < cycloid_t (sim_data st) ->
      cycloid_finished st' = false /\
      pos_cycloid_world st' = cycloid_flight st (sim_time st + dt))).
Proof.
  intros Hok.
  assert (Hother : state st <> simulate ->
    exists st', simulation_update dt st = Return st' /\ st' = st).
  { intros Hs. exists st. unfold simulation_update.
    destruct (state st); try reflexivity; try (split; reflexivity).
    contradiction. }
  destruct (state st) eqn:Hstate;
    try (destruct Hother as [st' [Hrun ->]]; [discriminate |];
         exists st; split; [exact Hrun |];
         repeat split; trivial; discriminate).
  clear Hother. unfold simulation_update. rewrite Hstate. cbv zeta.
  set (st1 := set_sim_time (sim_time st + dt) st).
  destruct (update_line_bead_total st1) as (p1 & f1 & -> & Hl1 & Hl2 & Hl3).
  { destruct Hok as (_ & HL & _). cbn. lra. }
  cbn [bind].
  set (st2 := set_line p1 f1 st1).
  destruct (update_cycloid_bead_total st2) as (p2 & f2 & -> & Hc1 & Hc2 & Hc3).
  { exact Hok. }
  cbn [bind].
  cbn [st1 st2 set_sim_time set_line set_cycloid line_finished
       cycloid_finished sim_time sim_data point_b_world pos_line_world
       pos_cycloid_world] in Hl1, Hl2, Hl3, Hc1, Hc2, Hc3.
  exists (if f1 && f2
          then set_state results (set_cycloid p2 f2 st2)
          else set_cycloid p2 f2 st2).
  change (line_flight st1 (sim_time st + dt))
    with (line_flight st (sim_time st + dt)) in Hl3.
  change (cycloid_flight st2 (sim_time st + dt))
    with (cycloid_flight st (sim_time st + dt)) in Hc3.
  split.
  { change (line_finished (set_cycloid p2 f2 st2)) with f1.
    change (cycloid_finished (set_cycloid p2 f2 st2)) with f2.
    destruct (f1 && f2); reflexivity. }
  assert (Hproj : forall st3,
    st3 = (if f1 && f2 then set_state results (set_cycloid p2 f2 st2)
           else set_cycloid p2 f2 st2) ->
    sim_data st3 = sim_data st /\ point_a_world st3 = point_a_world st /\
    point_b_world st3 = point_b_world st /\
    line_finished st3 = f1 /\ pos_line_world st3 = p1 /\
    cycloid_finished st3 = f2 /\ pos_cycloid_world st3 = p2).
  { intros st3 ->. destruct (f1 && f2); cbn; repeat split; reflexivity. }
  destruct (Hproj _ eq_refl) as (E1 & E2 & E3 & E4 & E5 & E6 & E7).
  rewrite E1, E2, E3, E4, E5, E6, E7. clear Hproj E1 E2 E3 E4 E5 E6 E7.
  split; [repeat split; reflexivity |].
  split; [exact Hl1 |]. split; [exact Hc1 |].
  split.
  - intros _ Hf. split; intros Ht; [apply Hl2 | apply Hl3]; assumption.
  - intros _ Hf. split; intros Ht; [apply Hc2 | apply Hc3]; assumption.
Qed.

(** Several passes in a row never fail, and an arrived bead stays put. *)
Lemma run_ticks_pinned (dts : list R) :
  forall st,
    solution_ok (sim_data st) ->
    exists st',
      run_ticks dts st = Return st' /\
      (line_finished st = true ->
       line_finished st' = true /\ pos_line_world st' = pos_line_world st) /\
      (cycloid_finished st = true ->
       cycloid_finished st' = true /\
       pos_cycloid_world st' = pos_cycloid_world st).
Proof.
  induction dts as [| dt dts IH]; intros st Hok.
  - exists st. cbn. repeat split; trivial.
  - destruct (simulation_update_summary dt st Hok)
      as (st1 & Hrun & (Hsd & _ & _) & Hl & Hc & _).
    destruct (IH st1) as (st2 & Hrun2 & Hl2 & Hc2).
    { rewrite Hsd. exact Hok. }
    exists st2. cbn [run_ticks]. rewrite Hrun. cbn [bind].
    split; [exact Hrun2 |]. split.
    + intros Hf. destruct (Hl Hf) as [Hf1 Hp1].
      destruct (Hl2 Hf1) as [Hf2 Hp2]. split; congruence.
    + intros Hf. destruct (Hc Hf) as [Hf1 Hp1].
      destruct (Hc2 Hf1) as [Hf2 Hp2]. split; congruence.
Qed.

(** The first pass after the release, in terms of the solution alone. *)
Lemma sampleAt_summary (s : PathSolution) (t : R) :
  solution_ok s ->
  exists st,
    sampleAt s t = Return st /\
    sim_data st = s /\
    (line_t s <= t ->
     line_finished st = true /\ pos_line_world st = sol_B s) /\
    (t < line_t s ->
     line_finished st = false /\
     pos_line_world st = line_flight (release (sol_A s) (sol_B s) s) t) /\
    (cycloid_t s <= t ->
     cycloid_finished st = true /\ pos_cycloid_world st = sol_B s) /\
    (t < cycloid_t s ->
     cycloid_finished st = false /\
     pos_cycloid_world st = cycloid_flight (release (sol_A s) (sol_B s) s) t).
Proof.
  intros Hok. unfold sampleAt.
  set (st0 := release (sol_A s) (sol_B s) s).
  destruct (simulation_update_summary t st0 Hok)
    as (st & Hrun & (Hsd & _ & _) & _ & _ & Hl & Hc).
  specialize (Hl eq_refl eq_refl). specialize (Hc eq_refl eq_refl).
  change (sim_time st0) with 0 in Hl, Hc.
  change (sim_data st0) with s in Hl, Hc, Hsd.
  change (point_b_world st0) with (sol_B s) in Hl, Hc.
  rewrite Rplus_0_l in Hl, Hc.
  exists st. split; [exact Hrun |]. split; [exact Hsd |].
  destruct Hl as [Hl1 Hl2], Hc as [Hc1 Hc2]. repeat split;
    try (apply Hl1; assumption); try (apply Hl2; assumption);
    try (apply Hc1; assumption); try (apply Hc2; assumption).
Qed.

(** ** The kinematics sampler *)

Section SamplerClaims.

Variable fsolve : (R -> R) -> R -> outcome R.

(** C5.  For a solution [s] of (A, B) and an elapsed time [t] at or past
    the travel time of a path, the sampler puts the bead of that path at B
    and sets its flag; whatever passes of the update block follow, the bead
    is still at B and the flag is still set.  The two paths are treated
    separately. *)
Theorem sample_past_arrival_is_pinned (A B : point) (s : PathSolution) (t : R) :
  calculate_paths fsolve A B = Return (Some s) ->
  exists st,
    sampleAt s t = Return st /\
    (line_t s <= t -> pos_line_world st = B /\ line_finished st = true) /\
    (cycloid_t s <= t ->
     pos_cycloid_world st = B /\ cycloid_finished st = true) /\
    forall dts, exists st',
      run_ticks dts st = Return st' /\
      (line_t s <= t -> pos_line_world st' = B /\ line_finished st' = true) /\
      (cycloid_t s <= t ->
       pos_cycloid_world st' = B /\ cycloid_finished st' = true).
Proof.
  intros Hs. destruct (solve_some_ok _ _ _ _ Hs) as (Hok & HA & HB).
  destruct (sampleAt_summary s t Hok) as (st & Hrun & Hsd & Hl & _ & Hc & _).
  rewrite HB in Hl, Hc.
  exists st. split; [exact Hrun |].
  split; [intros Ht; destruct (Hl Ht); split; assumption |].
  split; [intros Ht; destruct (Hc Ht); split; assumption |].
  intros dts. destruct (run_ticks_pinned dts st) as (st' & Hrun' & Hl' & Hc').
  { rewrite Hsd. exact Hok. }
  exists st'. split; [exact Hrun' |]. split; intros Ht.
  - destruct (Hl Ht) as [Hf Hp]. destruct (Hl' Hf) as [Hf' Hp'].
    split; congruence.
  - destruct (Hc Ht) as [Hf Hp]. destruct (Hc' Hf) as [Hf' Hp'].
    split; congruence.
Qed.

(** On the real-number reading, which has no overflow: for a solution [s]
    returned by the solver, no division by zero and no square root of a
    negative number occurs in the update block, at any elapsed time.  What
    a double does at the ends of its range is treated in the last part. *)
Lemma sampler_returns_over_reals (A B : point) (s : PathSolution) :
  calculate_paths fsolve A B = Return (Some s) ->
  (forall t, exists st, sampleAt s t = Return st) /\
  (forall dts, exists st, run_ticks dts (release A B s) = Return st).
Proof.
  intros Hs. destruct (solve_some_ok _ _ _ _ Hs) as (Hok & _ & _). split.
  - intros t. destruct (sampleAt_summary s t Hok) as (st & Hrun & _).
    exists st. exact Hrun.
  - intros dts.
    destruct (run_ticks_pinned dts (release A B s) Hok) as (st & Hrun & _).
    exists st. exact Hrun.
Qed.

End SamplerClaims.

Lemma half_arch_solved :
  calculate_paths finder_pi origin half_arch_end
  = Return (Some (general_solution origin half_arch_end PI)).
Proof.
  apply solve_general_root.
  - exact half_arch_below.
  - exact half_arch_wide.
  - reflexivity.
  - exact cos_PI_neq_1.
Qed.

Lemma half_arch_line_t_pos :
  0 < line_t (general_solution origin half_arch_end PI).
Proof.
  destruct (general_solution_ok origin half_arch_end PI
              half_arch_below cos_PI_neq_1) as (_ & _ & _ & Ht & _).
  exact Ht.
Qed.

Lemma sample_past_arrival_is_pinned_witness :
  let s := general_solution origin half_arch_end PI in
  exists st,
    sampleAt s (line_t s + cycloid_t s) = Return st /\
    (line_t s <= line_t s + cycloid_t s ->
     pos_line_world st = half_arch_end /\ line_finished st = true) /\
    (cycloid_t s <= line_t s + cycloid_t s ->
     pos_cycloid_world st = half_arch_end /\ cycloid_finished st = true) /\
    forall dts, exists st',
      run_ticks dts st = Return st' /\
      (line_t s <= line_t s + cycloid_t s ->
       pos_line_world st' = half_arch_end /\ line_finished st' = true) /\
      (cycloid_t s <= line_t s + cycloid_t s ->
       pos_cycloid_world st' = half_arch_end /\ cycloid_finished st' = true).
Proof.
  intros s.
  apply (sample_past_arrival_is_pinned finder_pi origin half_arch_end s).
  exact half_arch_solved.
Defined.

Section NegativeTime.

Variable fsolve : (R -> R) -> R -> outcome R.


End NegativeTime.


(** ** Sampling the curve *)

Lemma np_linspace_length (start stop : R) (n : nat) :
  length (np_linspace start stop n) = n.
Proof.
  unfold np_linspace. destruct n as [| [| m]].
  - reflexivity.
  - reflexivity.
  - rewrite length_app, length_firstn, length_map, length_seq.
    cbn [length]. lia.
Qed.

Lemma np_linspace_nth (start stop : R) (n i : nat) :
  (1 < n)%nat -> (i < n)%nat ->
  nth i (np_linspace start stop n) 0
  = start + INR i * (stop - start) / INR (n - 1).
Proof.
  intros Hn Hi. unfold np_linspace.
  destruct n as [| [| m]]; [lia | lia |].
  remember (S (S m) - 1)%nat as k eqn:Ek.
  assert (Hk : INR k <> 0) by (apply not_0_INR; lia).
  set (f := fun j : nat => INR j * ((stop - start) / INR k) + start).
  destruct (Nat.eq_dec i k) as [-> | Hne].
  - rewrite app_nth2 by (rewrite length_firstn, length_map, length_seq; lia).
    rewrite length_firstn, length_map, length_seq.
    replace (k - Nat.min k (S (S m)))%nat with 0%nat by lia.
    cbn [nth]. field. exact Hk.
  - rewrite app_nth1 by (rewrite length_firstn, length_map, length_seq; lia).
    rewrite nth_firstn.
    destruct (Nat.ltb_spec i k) as [Hlt | Hge]; [| lia].
    rewrite (nth_indep _ 0 (f 0%nat))
      by (rewrite length_map, length_seq; lia).
    rewrite map_nth, seq_nth by lia.
    unfold f. cbn [Nat.add]. field. exact Hk.
Qed.

Lemma combine_map_pair {X Y Z : Type} (f : X -> Y) (g : X -> Z) (l : list X) :
  combine (map f l) (map g l) = map (fun x => (f x, g x)) l.
Proof.
  induction l as [| x l IH]; [reflexivity |]. cbn. rewrite IH. reflexivity.
Qed.

Lemma sample_cycloid_length (xa ya dx r th : R) :
  length (sample_cycloid xa ya dx r th) = 100%nat.
Proof.
  unfold sample_cycloid. cbv zeta.
  rewrite combine_map_pair, length_map. apply np_linspace_length.
Qed.

Lemma sample_cycloid_nth (xa ya dx r th : R) (i : nat) :
  (i < 100)%nat ->
  let th_i := INR i * th / 99 in
  nth i (sample_cycloid xa ya dx r th) (0, 0)
  = (xa + np_sign dx * r * (th_i - sin th_i), ya + r * (1 - cos th_i)).
Proof.
  intros Hi th_i. unfold sample_cycloid. cbv zeta.
  rewrite combine_map_pair.
  set (h := fun t : R =>
              (xa + np_sign dx * r * (t - sin t), ya + r * (1 - cos t))).
  rewrite (nth_indep _ (0, 0) (h 0))
    by (rewrite length_map, np_linspace_length; exact Hi).
  rewrite map_nth, np_linspace_nth by lia.
  replace (0 + INR i * (th - 0) / INR (100 - 1)) with th_i; [reflexivity |].
  unfold th_i. rewrite (INR_IZR_INZ (100 - 1)).
  change (Z.of_nat (100 - 1)) with 99%Z. field.
Qed.

Lemma sample_cycloid_mirror (xa ya dx r th : R) :
  sample_cycloid xa ya (- dx) r th
  = map (mirror (xa, ya)) (sample_cycloid xa ya dx r th).
Proof.
  unfold sample_cycloid. cbv zeta.
  rewrite !combine_map_pair, map_map. apply map_ext. intros t.
  unfold mirror. cbn [fst snd]. rewrite np_sign_opp. f_equal. ring.
Qed.

Lemma mirror_self (A : point) : mirror A A = A.
Proof.
  destruct A as [xa ya]. unfold mirror. cbn [fst snd]. f_equal. ring.
Qed.

Lemma mirror_dx (A B : point) :
  fst (mirror A B) - fst A = - (fst B - fst A).
Proof. unfold mirror. cbn [fst]. ring. Qed.

Lemma mirror_dy (A B : point) : snd (mirror A B) - snd A = snd B - snd A.
Proof. reflexivity. Qed.

Lemma mirror_length (A B : point) :
  sqrt ((fst (mirror A B) - fst A) ^ 2 + (snd (mirror A B) - snd A) ^ 2)
  = sqrt ((fst B - fst A) ^ 2 + (snd B - snd A) ^ 2).
Proof.
  rewrite mirror_dx, mirror_dy. f_equal. ring.
Qed.

Lemma mirror_abs_dx (A B : point) :
  Rabs (fst (mirror A B) - fst A) = Rabs (fst B - fst A).
Proof. rewrite mirror_dx. apply Rabs_Ropp. Qed.

Section ShapeClaims.

Variable fsolve : (R -> R) -> R -> outcome R.

(** C8.  General case, the finder having returned [th]: the cycloid
    polyline has exactly 100 points; point [i] is the curve
    [x = Ax + sign dx * r * (t - sin t)], [y = Ay + r * (1 - cos t)] at the
    parameter [t = i * th / 99], so the parameters are evenly spaced from 0
    to [th]; the first point is A; and when [th] solves the equation the
    last point is B. *)
Theorem cycloid_polyline_samples (A B : point) (th : R) :
  let dx := fst B - fst A in
  let dy := snd B - snd A in
  0 < dy -> 1 <= Rabs dx ->
  fsolve (cycloid_equation (Rabs dx / dy)) PI = Return th ->
  cos th <> 1 ->
  exists s r,
    calculate_paths fsolve A B = Return (Some s) /\
    cycloid_r s = Fin r /\
    length (cycloid_points s) = 100%nat /\
    (forall i, (i < 100)%nat ->
       let t := INR i * th / 99 in
       nth i (cycloid_points s) (0, 0)
       = (fst A + np_sign dx * r * (t - sin t), snd A + r * (1 - cos t))) /\
    nth 0 (cycloid_points s) (0, 0) = A /\
    (cycloid_equation (Rabs dx / dy) th = 0 ->
     nth 99 (cycloid_points s) (0, 0) = B).
Proof.
  intros dx dy Hdy Hdx Hth Hc.
  exists (general_solution A B th), (dy / (1 - cos th)).
  split; [apply solve_general_root; assumption |].
  unfold general_solution; cbn [cycloid_r cycloid_points]. fold dx dy.
  pose proof (one_minus_cos_pos th Hc) as Hu.
  split; [reflexivity |].
  split; [apply sample_cycloid_length |].
  split; [intros i Hi; apply sample_cycloid_nth; exact Hi |].
  split.
  - rewrite sample_cycloid_nth by lia. cbv zeta. cbn [INR].
    replace (0 * th / 99) with 0 by field.
    rewrite sin_0, cos_0. destruct A as [xa ya]. cbn [fst snd].
    f_equal; ring.
  - intros Hroot. rewrite sample_cycloid_nth by lia. cbv zeta.
    rewrite (INR_IZR_INZ 99). change (Z.of_nat 99) with 99%Z.
    replace (99 * th / 99) with th by field.
    unfold cycloid_equation in Hroot.
    assert (Hw : th - sin th = Rabs dx / dy * (1 - cos th)) by lra.
    rewrite Hw. destruct A as [xa ya], B as [xb yb].
    cbn [fst snd] in *. f_equal.
    + transitivity (xa + np_sign dx * Rabs dx).
      * f_equal. field. lra.
      * rewrite np_sign_abs. unfold dx. ring.
    + unfold dy. field. lra.
Qed.

(** C7.  When (A, B) is solved, so is (A, B') for the mirror image B' of B
    about the vertical line through A: the two solutions have the same
    straight and cycloid travel times, the same radius and the same angle,
    and the cycloid polyline of the second is the mirror image of the
    first, point by point. *)
Theorem mirrored_points_give_mirrored_paths (A B : point) (s : PathSolution) :
  calculate_paths fsolve A B = Return (Some s) ->
  exists s',
    calculate_paths fsolve A (mirror A B) = Return (Some s') /\
    line_t s' = line_t s /\
    cycloid_t s' = cycloid_t s /\
    cycloid_r s' = cycloid_r s /\
    cycloid_theta_b s' = cycloid_theta_b s /\
    cycloid_points s' = map (mirror A) (cycloid_points s).
Proof.
  intros Hs. apply solve_some_inv in Hs.
  destruct Hs as [Hdy [[Hdx ->] | [Hdx [th [Hth [Hc ->]]]]]].
  - exists (vertical_solution A (mirror A B)). split.
    + apply solve_vertical; [exact Hdy | rewrite mirror_abs_dx; exact Hdx].
    + unfold vertical_solution;
        cbn [line_t cycloid_t cycloid_r cycloid_theta_b cycloid_points].
      rewrite mirror_length. cbn [map]. rewrite mirror_self.
      repeat split; reflexivity.
  - exists (general_solution A (mirror A B) th). split.
    + apply solve_general_root;
        [exact Hdy | rewrite mirror_abs_dx; exact Hdx | | exact Hc].
      rewrite mirror_abs_dx, mirror_dy. exact Hth.
    + unfold general_solution;
        cbn [line_t cycloid_t cycloid_r cycloid_theta_b cycloid_points].
      rewrite mirror_length, mirror_dy, mirror_dx.
      destruct A as [xa ya]. cbn [fst snd].
      rewrite sample_cycloid_mirror.
      repeat split; reflexivity.
Qed.

End ShapeClaims.

Lemma cycloid_polyline_samples_witness :
  exists s r,
    calculate_paths finder_pi origin half_arch_end = Return (Some s) /\
    cycloid_r s = Fin r /\
    length (cycloid_points s) = 100%nat /\
    (forall i, (i < 100)%nat ->
       let t := INR i * PI / 99 in
       nth i (cycloid_points s) (0, 0)
       = (fst origin
            + np_sign (fst half_arch_end - fst origin) * r * (t - sin t),
          snd origin + r * (1 - cos t))) /\
    nth 0 (cycloid_points s) (0, 0) = origin /\
    (cycloid_equation
       (Rabs (fst half_arch_end - fst origin)
          / (snd half_arch_end - snd origin)) PI = 0 ->
     nth 99 (cycloid_points s) (0, 0) = half_arch_end).
Proof.
  apply (cycloid_polyline_samples finder_pi origin half_arch_end PI).
  - exact half_arch_below.
  - exact half_arch_wide.
  - reflexivity.
  - exact cos_PI_neq_1.
Defined.

Lemma mirrored_points_give_mirrored_paths_witness :
  let s := general_solution origin half_arch_end PI in
  exists s',
    calculate_paths finder_pi origin (mirror origin half_arch_end)
      = Return (Some s') /\
    line_t s' = line_t s /\
    cycloid_t s' = cycloid_t s /\
    cycloid_r s' = cycloid_r s /\
    cycloid_theta_b s' = cycloid_theta_b s /\
    cycloid_points s' = map (mirror origin) (cycloid_points s).
Proof.
  intros s.
  apply (mirrored_points_give_mirrored_paths finder_pi origin half_arch_end s).
  exact half_arch_solved.
Defined.

(** ** Optimality of the cycloid *)

(** A root of the equation for a positive ratio, other than a turn of the
    circle back to height 0, is positive. *)
Lemma root_pos (ratio th : R) :
  0 < ratio -> cos th <> 1 -> cycloid_equation ratio th = 0 -> 0 < th.
Proof.
  intros Hr Hc Hroot. unfold cycloid_equation in Hroot.
  pose proof (one_minus_cos_pos th Hc) as Hu.
  assert (Hw : 0 < th - sin th).
  { replace (th - sin th) with (ratio * (1 - cos th)) by lra.
    apply Rmult_lt_0_compat; assumption. }
  destruct (Rtotal_order th 0) as [Hneg | [Hz | Hpos]].
  - pose proof (sin_gt_x th Hneg). lra.
  - subst th. rewrite sin_0 in Hw. lra.
  - exact Hpos.
Qed.

(** The inequality behind the comparison of the two times: with
    [u = 1 - cos th] and [w = th - sin th],
    [u * (2 (w^2 + u^2) - th^2 u) = (th sin th - 2 u)^2]. *)
Lemma chord_vs_arch (th : R) :
  0 < 1 - cos th ->
  th ^ 2 * (1 - cos th) <= 2 * ((th - sin th) ^ 2 + (1 - cos th) ^ 2).
Proof.
  intros Hu. pose proof (sin2_cos2 th) as Hsc. unfold Rsqr in Hsc.
  set (s := sin th) in *. set (c := cos th) in *.
  assert (Hid : (1 - c) * (2 * ((th - s) ^ 2 + (1 - c) ^ 2) - th ^ 2 * (1 - c))
                = (th * s - 2 * (1 - c)) ^ 2
                  + (s * s + c * c - 1) * (2 * (1 - c) - th ^ 2)) by ring.
  rewrite Hsc in Hid. pose proof (pow2_ge_0 (th * s - 2 * (1 - c))) as Hsq.
  assert (Hprod : 0 <= (1 - c)
                       * (2 * ((th - s) ^ 2 + (1 - c) ^ 2) - th ^ 2 * (1 - c)))
    by lra.
  apply Rmult_le_reg_l with (r := 1 - c); [exact Hu |]. lra.
Qed.

Lemma general_times_ordered (A B : point) (th : R) :
  let dx := fst B - fst A in
  let dy := snd B - snd A in
  0 < dy -> 1 <= Rabs dx -> cos th <> 1 ->
  cycloid_equation (Rabs dx / dy) th = 0 ->
  0 < cycloid_t (general_solution A B th) /\
  cycloid_t (general_solution A B th) <= line_t (general_solution A B th).
Proof.
  intros dx dy Hdy Hdx Hc Hroot.
  pose proof (one_minus_cos_pos th Hc) as Hu. pose proof G_pos as HG.
  pose proof (length_pos dx dy Hdy) as HL.
  assert (Hratio : 0 < Rabs dx / dy) by (apply Rdiv_lt_0_compat; lra).
  pose proof (root_pos _ _ Hratio Hc Hroot) as Hth.
  pose proof (radius_pos dy th Hdy Hc) as Hr.
  assert (Hq : 0 < dy / (1 - cos th) / G) by (apply Rdiv_lt_0_compat; lra).
  unfold general_solution; cbn [cycloid_t line_t]. fold dx dy.
  set (L := sqrt (dx ^ 2 + dy ^ 2)) in *.
  split.
  { apply Rmult_lt_0_compat; [exact Hth | apply sqrt_lt_R0; exact Hq]. }
  (* the cycloid time as one square root *)
  replace (th * sqrt (dy / (1 - cos th) / G))
    with (sqrt (th ^ 2 * (dy / (1 - cos th) / G))).
  2:{ rewrite sqrt_mult by (try apply pow2_ge_0; lra).
      rewrite sqrt_pow2 by lra. reflexivity. }
  apply sqrt_le_1_alt.
  (* the square of the straight time without the square root of L *)
  assert (HLL : L * L = dx ^ 2 + dy ^ 2).
  { unfold L. apply sqrt_def, squares_nonneg. }
  replace (2 * L / (G * dy / L)) with (2 * (L * L) / (G * dy))
    by (field; repeat split; lra).
  rewrite HLL, <- (pow2_abs dx).
  (* the horizontal distance from the equation *)
  unfold cycloid_equation in Hroot.
  assert (Hx : Rabs dx = dy * (th - sin th) / (1 - cos th)).
  { replace (th - sin th) with (Rabs dx / dy * (1 - cos th)) by lra.
    field. split; lra. }
  rewrite Hx.
  pose proof (chord_vs_arch th Hu) as Hkey.
  apply Rge_le, Rminus_ge, Rle_ge.
  replace (2 * ((dy * (th - sin th) / (1 - cos th)) ^ 2 + dy ^ 2) / (G * dy)
           - th ^ 2 * (dy / (1 - cos th) / G))
    with (dy * (2 * ((th - sin th) ^ 2 + (1 - cos th) ^ 2)
                - th ^ 2 * (1 - cos th))
          / (G * (1 - cos th) ^ 2))
    by (field; repeat split; lra).
  apply Rmult_le_pos.
  - apply Rmult_le_pos; lra.
  - apply Rlt_le, Rinv_0_lt_compat, Rmult_lt_0_compat;
      [exact HG | apply pow_lt; exact Hu].
Qed.

Section OptimalityClaim.

Variable fsolve : (R -> R) -> R -> outcome R.

(** C9.  For every solution the solver returns, both travel times are
    strictly positive and the cycloid time is at most the straight time,
    provided that, in the general case, the angle the root finder returned
    solves the equation [(th - sin th) = (|dx| / dy) * (1 - cos th)].  In
    the near-vertical case the two times are equal. *)
Theorem cycloid_is_not_slower (A B : point) (s : PathSolution) :
  let dx := fst B - fst A in
  let dy := snd B - snd A in
  calculate_paths fsolve A B = Return (Some s) ->
  (1 <= Rabs dx -> cycloid_equation (Rabs dx / dy) (cycloid_theta_b s) = 0) ->
  0 < line_t s /\ 0 < cycloid_t s /\ cycloid_t s <= line_t s.
Proof.
  intros dx dy Hs Hroot.
  destruct (solve_some_ok _ _ _ _ Hs) as ((_ & _ & _ & Ht & _) & _).
  split; [exact Ht |].
  apply solve_some_inv in Hs.
  destruct Hs as [Hdy [[Hdx ->] | [Hdx [th [_ [Hc ->]]]]]].
  - unfold vertical_solution in *; cbn [cycloid_t line_t] in *.
    split; [exact Ht | apply Rle_refl].
  - apply general_times_ordered; try assumption.
    apply Hroot. exact Hdx.
Qed.

End OptimalityClaim.

Lemma cycloid_is_not_slower_witness :
  let s := general_solution origin half_arch_end PI in
  0 < line_t s /\ 0 < cycloid_t s /\ cycloid_t s <= line_t s.
Proof.
  intros s.
  apply (cycloid_is_not_slower finder_pi origin half_arch_end s).
  - exact half_arch_solved.
  - intros _. exact half_arch_root.
Defined.

(** * Further properties of the solver and of the beads *)

(** ** The fields of a returned solution *)

Lemma solve_some_fields fsolve (A B : point) (s : PathSolution) :
  calculate_paths fsolve A B = Return (Some s) ->
  sol_dx s = fst B - fst A /\
  sol_dy s = snd B - snd A /\
  line_L s = sqrt ((fst B - fst A) ^ 2 + (snd B - snd A) ^ 2) /\
  line_t s * line_t s = 2 * line_L s / line_a s.
Proof.
  intros Hs. apply solve_some_inv in Hs.
  destruct Hs as [Hdy [[_ ->] | [_ [th [_ [Hc ->]]]]]].
  - pose proof (length_pos (fst B - fst A) _ Hdy) as HL.
    pose proof G_pos as HG.
    unfold vertical_solution; cbn [sol_dx sol_dy line_L line_t line_a].
    repeat split. apply sqrt_def.
    apply Rlt_le, Rdiv_lt_0_compat; lra.
  - pose proof (length_pos (fst B - fst A) _ Hdy) as HL.
    pose proof (incline_acceleration_pos (fst B - fst A) _ Hdy) as Ha.
    unfold general_solution; cbn [sol_dx sol_dy line_L line_t line_a].
    repeat split. apply sqrt_def.
    apply Rlt_le, Rdiv_lt_0_compat; lra.
Qed.

(** Under constant acceleration [a] the distance [a t^2 / 2] stays short of
    [L] before the time [T] with [T^2 = 2 L / a], and is [L] at [T]. *)
Lemma distance_fraction_lt_1 (a L T t : R) :
  0 < a -> 0 < L -> T * T = 2 * L / a -> 0 <= t < T ->
  0 <= 0.5 * a * t ^ 2 / L < 1.
Proof.
  intros Ha HL HT [Ht0 Ht].
  assert (HaT : a * (T * T) = 2 * L) by (rewrite HT; field; lra).
  assert (Hsq : t * t < T * T) by nra.
  assert (Hnum : 0.5 * a * t ^ 2 < L) by nra.
  split.
  - apply Rmult_le_pos; [nra | apply Rlt_le, Rinv_0_lt_compat; exact HL].
  - apply Rmult_lt_reg_r with (r := L); [exact HL |].
    replace (0.5 * a * t ^ 2 / L * L) with (0.5 * a * t ^ 2) by (field; lra).
    lra.
Qed.

Lemma distance_fraction_at_T (a L T : R) :
  0 < a -> 0 < L -> T * T = 2 * L / a -> 0.5 * a * T ^ 2 / L = 1.
Proof.
  intros Ha HL HT.
  replace (T ^ 2) with (T * T) by ring. rewrite HT.
  replace 0.5 with (1 / 2) by lra. field. lra.
Qed.

(** ** The beads in flight *)

Section BeadFacts.

Variable fsolve : (R -> R) -> R -> outcome R.

(** X1.  From the release up to the straight travel time the straight bead
    is at [A + frac * (B - A)] with [frac = a t^2 / (2 L)] in [[0, 1)]: it
    is on the segment from A to B and has not reached B. *)
Theorem line_bead_stays_on_segment (A B : point) (s : PathSolution) (t : R) :
  calculate_paths fsolve A B = Return (Some s) ->
  0 <= t < line_t s ->
  exists st frac,
    sampleAt s t = Return st /\
    line_finished st = false /\
    frac = 0.5 * line_a s * t ^ 2 / line_L s /\
    0 <= frac < 1 /\
    pos_line_world st
    = (fst A + frac * (fst B - fst A), snd A + frac * (snd B - snd A)).
Proof.
  intros Hs Ht.
  destruct (solve_some_ok _ _ _ _ Hs) as (Hok & HA & HB).
  destruct (solve_some_fields _ _ _ _ Hs) as (Hdx & Hdy & _ & HT).
  destruct (sampleAt_summary s t Hok) as (st & Hrun & _ & _ & Hl & _).
  destruct Hl as [Hf Hp]; [lra |].
  destruct Hok as (_ & HL & Ha & _).
  exists st, (0.5 * line_a s * t ^ 2 / line_L s).
  split; [exact Hrun |]. split; [exact Hf |]. split; [reflexivity |].
  split; [apply (distance_fraction_lt_1 _ _ (line_t s)); assumption |].
  rewrite Hp. unfold line_flight. cbn [release point_a_world sim_data].
  rewrite HA, Hdx, Hdy. reflexivity.
Qed.

(** X2.  The straight travel time of a solution is the time at which the
    distance [a t^2 / 2] is the length of the segment, so the bead reaches
    B without a jump; the acceleration along the segment is positive and at
    most [G]. *)
Theorem straight_time_covers_length (A B : point) (s : PathSolution) :
  calculate_paths fsolve A B = Return (Some s) ->
  0.5 * line_a s * line_t s ^ 2 = line_L s /\
  0 < line_a s <= G /\
  snd B - snd A <= line_L s.
Proof.
  intros Hs.
  destruct (solve_some_ok _ _ _ _ Hs) as ((Hdy & HL & Ha & _) & _).
  destruct (solve_some_fields _ _ _ _ Hs) as (_ & Edy & EL & HT).
  pose proof (distance_fraction_at_T _ _ _ Ha HL HT) as H1.
  assert (Hlen : snd B - snd A <= line_L s).
  { rewrite EL. rewrite Edy in Hdy.
    rewrite <- (sqrt_pow2 (snd B - snd A)) at 1 by lra.
    apply sqrt_le_1_alt. pose proof (pow2_ge_0 (fst B - fst A)). lra. }
  split; [| split; [split; [exact Ha |] | exact Hlen]].
  - apply Rmult_eq_reg_r with (r := / line_L s).
    + rewrite Rinv_r by lra. exact H1.
    + apply Rinv_neq_0_compat. lra.
  - apply solve_some_inv in Hs.
    destruct Hs as [Hdy' [[_ ->] | [_ [th [_ [_ ->]]]]]].
    + cbn [vertical_solution line_a]. apply Rle_refl.
    + unfold general_solution in *; cbn [line_a line_L] in *.
      pose proof G_pos as HG.
      apply Rmult_le_reg_r with (r := sqrt ((fst B - fst A) ^ 2
                                            + (snd B - snd A) ^ 2));
        [exact HL |].
      replace (G * (snd B - snd A)
               / sqrt ((fst B - fst A) ^ 2 + (snd B - snd A) ^ 2)
               * sqrt ((fst B - fst A) ^ 2 + (snd B - snd A) ^ 2))
        with (G * (snd B - snd A)) by (field; lra).
      apply Rmult_le_compat_l; lra.
Qed.

(** X3.  At elapsed time 0 the straight bead is at A and in flight.  So is
    the cycloid bead when the cycloid time is positive; when it is not
    (the finder returned an angle that is not positive) the cycloid bead is
    at B at once. *)
Theorem sample_at_release (A B : point) (s : PathSolution) :
  calculate_paths fsolve A B = Return (Some s) ->
  exists st,
    sampleAt s 0 = Return st /\
    pos_line_world st = A /\ line_finished st = false /\
    (0 < cycloid_t s ->
     pos_cycloid_world st = A /\ cycloid_finished st = false) /\
    (cycloid_t s <= 0 ->
     pos_cycloid_world st = B /\ cycloid_finished st = true) /\
    (cycloid_r s = PInf \/ 0 < cycloid_theta_b s -> 0 < cycloid_t s).
Proof.
  intros Hs.
  destruct (solve_some_ok _ _ _ _ Hs) as (Hok & HA & HB).
  destruct (sampleAt_summary s 0 Hok)
    as (st & Hrun & _ & _ & Hl & Hc1 & Hc2).
  pose proof Hok as (_ & HL & Ha & Ht & Hr).
  destruct Hl as [Hf Hp]; [lra |].
  exists st. split; [exact Hrun |].
  assert (Hz : forall x y : R, x + 0 * y = x) by (intros; ring).
  split; [| split; [exact Hf | split; [| split]]].
  - rewrite Hp. unfold line_flight. cbn [release point_a_world sim_data].
    rewrite HA. destruct A as [xa ya]. cbn [fst snd].
    replace (0.5 * line_a s * 0 ^ 2 / line_L s) with 0 by (field; lra).
    rewrite !Hz. reflexivity.
  - intros Hpos. destruct (Hc2 Hpos) as [Hg Hq]. split; [| exact Hg].
    rewrite Hq. unfold cycloid_flight. cbn [release point_a_world sim_data].
    rewrite HA. destruct A as [xa ya]. cbn [fst snd].
    destruct (cycloid_r s) as [r |].
    + cbv zeta.
      assert (Hsq : 0 < sqrt (r / G))
        by (apply sqrt_lt_R0, Rdiv_lt_0_compat; [exact Hr | apply G_pos]).
      replace (0 / sqrt (r / G)) with 0 by (field; lra).
      rewrite sin_0, cos_0. f_equal; ring.
    + cbv zeta. destruct Hok as (Hdy & _).
      replace (0.5 * G * 0 ^ 2 / sol_dy s) with 0 by (field; lra).
      rewrite Hz. reflexivity.
  - intros Hneg. destruct (Hc1 Hneg) as [Hg Hq]. rewrite HB in Hq.
    split; assumption.
  - intros [Hinf | Hth].
    + rewrite Hinf in Hr. lra.
    + apply solve_some_inv in Hs.
      destruct Hs as [Hdy [[_ ->] | [_ [th [_ [Hc ->]]]]]].
      * cbn [vertical_solution cycloid_t line_t] in *. exact Ht.
      * unfold general_solution in *; cbn [cycloid_t cycloid_theta_b] in *.
        apply Rmult_lt_0_compat; [exact Hth |].
        apply sqrt_lt_R0, Rdiv_lt_0_compat;
          [apply radius_pos; assumption | apply G_pos].
Qed.

End BeadFacts.

(** The state variable after one pass: ['results'] exactly when both beads
    have arrived. *)
Lemma simulation_update_phase (dt : R) (st : Sim) :
  solution_ok (sim_data st) -> state st = simulate ->
  exists st',
    simulation_update dt st = Return st' /\
    ((state st' = results /\
      line_finished st' = true /\ cycloid_finished st' = true) \/
     (state st' = simulate /\
      (line_finished st' = false \/ cycloid_finished st' = false))).
Proof.
  intros Hok Hstate. unfold simulation_update. rewrite Hstate. cbv zeta.
  set (st1 := set_sim_time (sim_time st + dt) st).
  destruct (update_line_bead_total st1) as (p1 & f1 & -> & _).
  { destruct Hok as (_ & HL & _). cbn. lra. }
  cbn [bind]. set (st2 := set_line p1 f1 st1).
  destruct (update_cycloid_bead_total st2) as (p2 & f2 & -> & _).
  { exact Hok. }
  cbn [bind].
  change (line_finished (set_cycloid p2 f2 st2)) with f1.
  change (cycloid_finished (set_cycloid p2 f2 st2)) with f2.
  change (state (set_cycloid p2 f2 st2)) with (state st).
  destruct f1, f2; cbn [andb]; eexists; (split; [reflexivity |]);
    cbn; rewrite ?Hstate; auto.
Qed.

Lemma simulation_update_results (dt : R) (st : Sim) :
  state st = results -> simulation_update dt st = Return st.
Proof.
  intros Hstate. unfold simulation_update. rewrite Hstate. reflexivity.
Qed.

Lemma run_ticks_results (dts : list R) (st : Sim) :
  state st = results -> run_ticks dts st = Return st.
Proof.
  intros Hstate. induction dts as [| dt dts IH]; [reflexivity |].
  cbn [run_ticks]. rewrite simulation_update_results by exact Hstate.
  cbn [bind]. exact IH.
Qed.

Lemma run_ticks_phase (dts : list R) :
  forall st,
    solution_ok (sim_data st) -> phase_consistent st ->
    exists st', run_ticks dts st = Return st' /\ phase_consistent st'.
Proof.
  induction dts as [| dt dts IH]; intros st Hok Hph.
  - exists st. split; [reflexivity | exact Hph].
  - destruct Hph as [(Hres & Hfl) | (Hsim & Hfl)].
    + exists st. split; [apply run_ticks_results; exact Hres |].
      left. split; assumption.
    + destruct (simulation_update_phase dt st Hok Hsim) as (st1 & Hrun & Hph1).
      destruct (simulation_update_summary dt st Hok)
        as (st1' & Hrun' & (Hsd & _) & _).
      assert (st1' = st1) by congruence. subst st1'.
      destruct (IH st1) as (st2 & Hrun2 & Hph2);
        [rewrite Hsd; exact Hok | exact Hph1 |].
      exists st2. cbn [run_ticks]. rewrite Hrun. cbn [bind].
      split; assumption.
Qed.

Section BeadFacts2.

Variable fsolve : (R -> R) -> R -> outcome R.

(** X4.  When B is exactly below A ([dx = 0]) the two beads are at the same
    place at every elapsed time, and arrive together. *)
Theorem vertical_drop_beads_coincide (A B : point) (s : PathSolution) (t : R) :
  calculate_paths fsolve A B = Return (Some s) ->
  fst B = fst A ->
  exists st,
    sampleAt s t = Return st /\
    pos_line_world st = pos_cycloid_world st /\
    line_finished st = cycloid_finished st.
Proof.
  intros Hs Hx.
  destruct (solve_some_ok _ _ _ _ Hs) as (Hok & HA & HB).
  destruct (sampleAt_summary s t Hok)
    as (st & Hrun & _ & Hl1 & Hl2 & Hc1 & Hc2).
  apply solve_some_inv in Hs.
  assert (Hdx0 : fst B - fst A = 0) by (rewrite Hx; ring).
  destruct Hs as [Hdy [[_ Es] | [Hdx _]]];
    [| rewrite Hdx0, Rabs_R0 in Hdx; lra].
  exists st. split; [exact Hrun |].
  assert (Ht : cycloid_t s = line_t s) by (rewrite Es; reflexivity).
  rewrite Ht in Hc1, Hc2.
  destruct (Rlt_dec t (line_t s)) as [Hlt | Hge].
  - destruct (Hl2 Hlt) as [Hf Hp]. destruct (Hc2 Hlt) as [Hg Hq].
    split; [| congruence].
    rewrite Hp, Hq. unfold line_flight, cycloid_flight.
    cbn [release point_a_world sim_data].
    rewrite Es. unfold vertical_solution;
      cbn [sol_A sol_dx sol_dy line_a line_L cycloid_r].
    rewrite Hdx0.
    replace (sqrt (0 ^ 2 + (snd B - snd A) ^ 2)) with (snd B - snd A).
    2:{ replace (0 ^ 2 + (snd B - snd A) ^ 2) with ((snd B - snd A) ^ 2)
          by ring.
        rewrite sqrt_pow2; lra. }
    f_equal. ring.
  - assert (Hle : line_t s <= t) by lra.
    destruct (Hl1 Hle) as [Hf Hp]. destruct (Hc1 Hle) as [Hg Hq].
    split; congruence.
Qed.

(** X5.  In the near-vertical branch ([|dx| < 1]) the cycloid bead in
    flight falls straight down from A by [G t^2 / 2], whatever [dx] is.
    When [dx <> 0] it is therefore never on the way to B, and there is a
    time before its arrival at which it is already lower than B. *)
Theorem near_vertical_cycloid_bead_falls_freely
  (A B : point) (s : PathSolution) :
  calculate_paths fsolve A B = Return (Some s) ->
  Rabs (fst B - fst A) < 1 ->
  (forall t, t < cycloid_t s ->
     exists st,
       sampleAt s t = Return st /\
       cycloid_finished st = false /\
       pos_cycloid_world st = (fst A, snd A + 0.5 * G * t ^ 2)) /\
  (fst B <> fst A ->
   exists t st,
     0 <= t < cycloid_t s /\
     sampleAt s t = Return st /\
     cycloid_finished st = false /\
     snd B < snd (pos_cycloid_world st)).
Proof.
  intros Hs Hdx.
  destruct (solve_some_ok _ _ _ _ Hs) as (Hok & HA & HB).
  apply solve_some_inv in Hs.
  destruct Hs as [Hdy [[_ Es] | [Hge _]]]; [| lra].
  pose proof G_pos as HG.
  assert (Hfall : forall t, t < cycloid_t s ->
     exists st,
       sampleAt s t = Return st /\
       cycloid_finished st = false /\
       pos_cycloid_world st = (fst A, snd A + 0.5 * G * t ^ 2)).
  { intros t Ht.
    destruct (sampleAt_summary s t Hok) as (st & Hrun & _ & _ & _ & _ & Hc).
    destruct (Hc Ht) as [Hg Hq].
    exists st. split; [exact Hrun |]. split; [exact Hg |].
    rewrite Hq. unfold cycloid_flight. cbn [release point_a_world sim_data].
    rewrite Es. unfold vertical_solution; cbn [sol_A sol_dy cycloid_r].
    f_equal. f_equal. field. lra. }
  split; [exact Hfall |].
  intros Hne.
  set (dx := fst B - fst A) in *. set (dy := snd B - snd A) in *.
  set (L := sqrt (dx ^ 2 + dy ^ 2)).
  assert (HT : cycloid_t s = sqrt (2 * L / G)) by (rewrite Es; reflexivity).
  assert (HL : dy < L).
  { unfold L. rewrite <- (sqrt_pow2 dy) at 1 by lra.
    apply sqrt_lt_1_alt. split; [apply pow2_ge_0 |].
    assert (0 < dx ^ 2) by (apply pow_nonzero_lt_0 || (unfold dx; nra)).
    lra. }
  set (t := sqrt ((dy + L) / G)).
  assert (Hq : 0 <= (dy + L) / G)
    by (apply Rlt_le, Rdiv_lt_0_compat; lra).
  assert (Ht2 : t ^ 2 = (dy + L) / G) by (apply pow2_sqrt; exact Hq).
  assert (Ht : t < cycloid_t s).
  { rewrite HT. unfold t. apply sqrt_lt_1_alt. split; [exact Hq |].
    apply Rmult_lt_compat_r; [apply Rinv_0_lt_compat; exact HG | lra]. }
  destruct (Hfall t Ht) as (st & Hrun & Hg & Hp).
  exists t, st. split; [split; [apply sqrt_pos | exact Ht] |].
  split; [exact Hrun |]. split; [exact Hg |].
  rewrite Hp. cbn [snd]. rewrite Ht2.
  replace (0.5 * G * ((dy + L) / G)) with ((dy + L) / 2)
    by (replace 0.5 with (1 / 2) by lra; field; lra).
  unfold dy in *. lra.
Qed.

End BeadFacts2.

(** The curve of radius [dy / (1 - cos th)] through A passes through B at
    the parameter [th] when [th] solves the equation. *)
Lemma curve_at_root (A B : point) (th : R) :
  let dx := fst B - fst A in
  let dy := snd B - snd A in
  let r := dy / (1 - cos th) in
  0 < dy -> cos th <> 1 ->
  cycloid_equation (Rabs dx / dy) th = 0 ->
  (fst A + np_sign dx * r * (th - sin th), snd A + r * (1 - cos th)) = B.
Proof.
  intros dx dy r Hdy Hc Hroot.
  pose proof (one_minus_cos_pos th Hc) as Hu.
  unfold cycloid_equation in Hroot.
  assert (Hw : th - sin th = Rabs dx / dy * (1 - cos th)) by lra.
  rewrite Hw. destruct A as [xa ya], B as [xb yb]. cbn [fst snd] in *.
  unfold r. f_equal.
  - transitivity (xa + np_sign dx * Rabs dx).
    + f_equal. field. lra.
    + rewrite np_sign_abs. unfold dx. ring.
  - unfold dy. field. lra.
Qed.

Section CycloidBeadFacts.

Variable fsolve : (R -> R) -> R -> outcome R.

(** X6.  In the general branch, from the release up to the cycloid travel
    time, the cycloid bead is the point of the curve
    [(Ax + sign dx * r * (u - sin u), Ay + r * (1 - cos u))] whose
    parameter [u = t / sqrt (r / G)] grows linearly with time and stays in
    [[0, theta_b)]: the bead moves along the curve that the polyline
    samples and has not reached its end. *)
Theorem cycloid_bead_follows_curve
  (A B : point) (s : PathSolution) (r t : R) :
  calculate_paths fsolve A B = Return (Some s) ->
  cycloid_r s = Fin r ->
  0 <= t < cycloid_t s ->
  exists st u,
    sampleAt s t = Return st /\
    cycloid_finished st = false /\
    u = t / sqrt (r / G) /\
    0 <= u < cycloid_theta_b s /\
    u * cycloid_t s = cycloid_theta_b s * t /\
    pos_cycloid_world st
    = (fst A + np_sign (fst B - fst A) * r * (u - sin u),
       snd A + r * (1 - cos u)).
Proof.
  intros Hs Hr [Ht0 Ht].
  destruct (solve_some_ok _ _ _ _ Hs) as (Hok & HA & HB).
  destruct (solve_some_fields _ _ _ _ Hs) as (Hdx & _).
  destruct (sampleAt_summary s t Hok) as (st & Hrun & _ & _ & _ & _ & Hc).
  destruct (Hc Ht) as [Hg Hq].
  assert (Hrpos : 0 < r).
  { destruct Hok as (_ & _ & _ & _ & Hrr). rewrite Hr in Hrr. exact Hrr. }
  assert (Hsq : 0 < sqrt (r / G))
    by (apply sqrt_lt_R0, Rdiv_lt_0_compat; [exact Hrpos | apply G_pos]).
  assert (HT : cycloid_t s = cycloid_theta_b s * sqrt (r / G)).
  { apply solve_some_inv in Hs.
    destruct Hs as [_ [[_ Es] | [_ [th [_ [_ Es]]]]]]; rewrite Es in Hr |- *.
    - discriminate.
    - unfold general_solution in *; cbn [cycloid_r cycloid_t cycloid_theta_b] in *.
      injection Hr as <-. reflexivity. }
  exists st, (t / sqrt (r / G)).
  split; [exact Hrun |]. split; [exact Hg |]. split; [reflexivity |].
  split; [| split].
  - split.
    + apply Rmult_le_pos; [exact Ht0 | apply Rlt_le, Rinv_0_lt_compat; exact Hsq].
    + apply Rmult_lt_reg_r with (r := sqrt (r / G)); [exact Hsq |].
      replace (t / sqrt (r / G) * sqrt (r / G)) with t by (field; lra).
      rewrite <- HT. exact Ht.
  - rewrite HT. field. lra.
  - rewrite Hq. unfold cycloid_flight. cbn [release point_a_world sim_data].
    rewrite Hr, HA, Hdx. reflexivity.
Qed.

(** X7.  In the general branch, when the angle the finder returned solves
    the equation, the expression for the cycloid bead in flight, taken at
    the cycloid travel time, is B: the bead reaches B without a jump. *)
Theorem cycloid_bead_arrives_without_jump (A B : point) (s : PathSolution) :
  calculate_paths fsolve A B = Return (Some s) ->
  1 <= Rabs (fst B - fst A) ->
  cycloid_equation (Rabs (fst B - fst A) / (snd B - snd A))
    (cycloid_theta_b s) = 0 ->
  cycloid_flight (release A B s) (cycloid_t s) = B.
Proof.
  intros Hs Hdx Hroot. apply solve_some_inv in Hs.
  destruct Hs as [Hdy [[Hv _] | [_ [th [_ [Hc ->]]]]]]; [lra |].
  unfold general_solution in Hroot; cbn [cycloid_theta_b] in Hroot.
  unfold cycloid_flight, general_solution;
    cbn [release sim_data point_a_world cycloid_r cycloid_t sol_dx].
  cbv zeta.
  assert (Hsq : 0 < sqrt ((snd B - snd A) / (1 - cos th) / G)).
  { apply sqrt_lt_R0, Rdiv_lt_0_compat;
      [apply radius_pos; assumption | apply G_pos]. }
  replace (th * sqrt ((snd B - snd A) / (1 - cos th) / G)
           / sqrt ((snd B - snd A) / (1 - cos th) / G)) with th
    by (field; lra).
  apply curve_at_root; assumption.
Qed.

(** X8.  A simulation started from a solution is in state ['simulate'] or
    ['results'], and in ['results'] exactly when both beads have arrived.
    An update at or past both travel times ends it, and once it is in
    ['results'] further updates change nothing, the clock included. *)
Theorem simulation_ends_in_results (A B : point) (s : PathSolution) :
  calculate_paths fsolve A B = Return (Some s) ->
  (forall dts, exists st,
     run_ticks dts (release A B s) = Return st /\
     (state st = simulate \/ state st = results) /\
     (state st = results <->
      line_finished st = true /\ cycloid_finished st = true) /\
     (state st = results -> forall dts', run_ticks dts' st = Return st)) /\
  (forall t, line_t s <= t -> cycloid_t s <= t ->
     exists st, sampleAt s t = Return st /\ state st = results).
Proof.
  intros Hs. destruct (solve_some_ok _ _ _ _ Hs) as (Hok & HA & HB). split.
  - intros dts.
    destruct (run_ticks_phase dts (release A B s) Hok) as (st & Hrun & Hph).
    { right. split; [reflexivity | left; reflexivity]. }
    exists st. split; [exact Hrun |].
    destruct Hph as [(Hst & Hl & Hc) | (Hst & Hfl)].
    + split; [right; exact Hst |]. split; [tauto |].
      intros _ dts'. apply run_ticks_results. exact Hst.
    + split; [left; exact Hst |]. split.
      * split; [intros Hres; congruence |].
        intros [Hl Hc]. destruct Hfl; congruence.
      * intros Hres. congruence.
  - intros t Hl Hc. unfold sampleAt. rewrite HA, HB.
    destruct (simulation_update_phase t (release A B s) Hok eq_refl)
      as (st & Hrun & Hph).
    destruct (sampleAt_summary s t Hok) as (st' & Hrun' & _ & Hl' & _ & Hc' & _).
    unfold sampleAt in Hrun'. rewrite HA, HB in Hrun'.
    assert (st' = st) by congruence. subst st'.
    exists st. split; [exact Hrun |].
    destruct Hph as [(Hst & _) | (_ & Hfl)]; [exact Hst |].
    destruct (Hl' Hl) as [Hf _]. destruct (Hc' Hc) as [Hg _].
    destruct Hfl; congruence.
Qed.

End CycloidBeadFacts.

(** ** Instances on the sample data *)

Lemma vertical_drop_solved :
  calculate_paths finder_pi (0, 0) (0, 500)
  = Return (Some (vertical_solution (0, 0) (0, 500))).
Proof.
  apply solve_vertical; cbn [fst snd].
  - lra.
  - rewrite Rabs_right; lra.
Qed.

Lemma near_drop_abs : Rabs (fst (0.5, 500) - fst (0, 0)) < 1.
Proof. cbn [fst]. rewrite Rabs_right; lra. Qed.

Lemma near_drop_solved :
  calculate_paths finder_pi (0, 0) (0.5, 500)
  = Return (Some (vertical_solution (0, 0) (0.5, 500))).
Proof.
  apply solve_vertical; [cbn [snd]; lra | exact near_drop_abs].
Qed.

Lemma half_arch_cycloid_t_pos :
  0 < cycloid_t (general_solution origin half_arch_end PI).
Proof.
  unfold general_solution; cbn [cycloid_t].
  apply Rmult_lt_0_compat; [apply PI_RGT_0 |].
  apply sqrt_lt_R0, Rdiv_lt_0_compat; [| apply G_pos].
  apply radius_pos; [exact half_arch_below | exact cos_PI_neq_1].
Qed.

Lemma line_bead_stays_on_segment_witness :
  let s := general_solution origin half_arch_end PI in
  let t := line_t s / 2 in
  exists st frac,
    sampleAt s t = Return st /\
    line_finished st = false /\
    frac = 0.5 * line_a s * t ^ 2 / line_L s /\
    0 <= frac < 1 /\
    pos_line_world st
    = (fst origin + frac * (fst half_arch_end - fst origin),
       snd origin + frac * (snd half_arch_end - snd origin)).
Proof.
  intros s t.
  apply (line_bead_stays_on_segment finder_pi origin half_arch_end s t).
  - exact half_arch_solved.
  - unfold t, s. pose proof half_arch_line_t_pos. lra.
Defined.

Lemma straight_time_covers_length_witness :
  let s := general_solution origin half_arch_end PI in
  0.5 * line_a s * line_t s ^ 2 = line_L s /\
  0 < line_a s <= G /\
  snd half_arch_end - snd origin <= line_L s.
Proof.
  intros s.
  apply (straight_time_covers_length finder_pi origin half_arch_end s).
  exact half_arch_solved.
Defined.

Lemma sample_at_release_witness :
  let s := general_solution origin half_arch_end PI in
  exists st,
    sampleAt s 0 = Return st /\
    pos_line_world st = origin /\ line_finished st = false /\
    (0 < cycloid_t s ->
     pos_cycloid_world st = origin /\ cycloid_finished st = false) /\
    (cycloid_t s <= 0 ->
     pos_cycloid_world st = half_arch_end /\ cycloid_finished st = true) /\
    (cycloid_r s = PInf \/ 0 < cycloid_theta_b s -> 0 < cycloid_t s).
Proof.
  intros s. apply (sample_at_release finder_pi origin half_arch_end s).
  exact half_arch_solved.
Defined.

Lemma vertical_drop_beads_coincide_witness :
  exists st,
    sampleAt (vertical_solution (0, 0) (0, 500)) 0.25 = Return st /\
    pos_line_world st = pos_cycloid_world st /\
    line_finished st = cycloid_finished st.
Proof.
  apply (vertical_drop_beads_coincide finder_pi (0, 0) (0, 500)).
  - exact vertical_drop_solved.
  - reflexivity.
Defined.

Lemma near_vertical_cycloid_bead_falls_freely_witness :
  let s := vertical_solution (0, 0) (0.5, 500) in
  (forall t, t < cycloid_t s ->
     exists st,
       sampleAt s t = Return st /\
       cycloid_finished st = false /\
       pos_cycloid_world st = (fst (0, 0), snd (0, 0) + 0.5 * G * t ^ 2)) /\
  (fst (0.5, 500) <> fst (0, 0) ->
   exists t st,
     0 <= t < cycloid_t s /\
     sampleAt s t = Return st /\
     cycloid_finished st = false /\
     snd (0.5, 500) < snd (pos_cycloid_world st)).
Proof.
  intros s.
  apply (near_vertical_cycloid_bead_falls_freely finder_pi (0, 0) (0.5, 500)).
  - exact near_drop_solved.
  - exact near_drop_abs.
Defined.

Lemma cycloid_bead_follows_curve_witness :
  let s := general_solution origin half_arch_end PI in
  let r := (snd half_arch_end - snd origin) / (1 - cos PI) in
  exists st u,
    sampleAt s 0 = Return st /\
    cycloid_finished st = false /\
    u = 0 / sqrt (r / G) /\
    0 <= u < cycloid_theta_b s /\
    u * cycloid_t s = cycloid_theta_b s * 0 /\
    pos_cycloid_world st
    = (fst origin + np_sign (fst half_arch_end - fst origin) * r * (u - sin u),
       snd origin + r * (1 - cos u)).
Proof.
  intros s r.
  apply (cycloid_bead_follows_curve finder_pi origin half_arch_end s r 0).
  - exact half_arch_solved.
  - reflexivity.
  - split; [apply Rle_refl | exact half_arch_cycloid_t_pos].
Defined.

Lemma cycloid_bead_arrives_without_jump_witness :
  let s := general_solution origin half_arch_end PI in
  cycloid_flight (release origin half_arch_end s) (cycloid_t s)
  = half_arch_end.
Proof.
  intros s.
  apply (cycloid_bead_arrives_without_jump finder_pi origin half_arch_end s).
  - exact half_arch_solved.
  - exact half_arch_wide.
  - exact half_arch_root.
Defined.

Lemma simulation_ends_in_results_witness :
  let s := general_solution origin half_arch_end PI in
  (forall dts, exists st,
     run_ticks dts (release origin half_arch_end s) = Return st /\
     (state st = simulate \/ state st = results) /\
     (state st = results <->
      line_finished st = true /\ cycloid_finished st = true) /\
     (state st = results -> forall dts', run_ticks dts' st = Return st)) /\
  (forall t, line_t s <= t -> cycloid_t s <= t ->
     exists st, sampleAt s t = Return st /\ state st = results).
Proof.
  intros s.
  apply (simulation_ends_in_results finder_pi origin half_arch_end s).
  exact half_arch_solved.
Defined.

(** ** More on the solver *)

Lemma sin_le_x (u : R) : 0 <= u -> sin u <= u.
Proof.
  intros [Hpos | <-].
  - apply Rlt_le, sin_lt_x. exact Hpos.
  - rewrite sin_0. apply Rle_refl.
Qed.

Lemma sample_cycloid_In (xa ya dx r th : R) (p : point) :
  In p (sample_cycloid xa ya dx r th) ->
  exists i, (i < 100)%nat /\
    let u := INR i * th / 99 in
    p = (xa + np_sign dx * r * (u - sin u), ya + r * (1 - cos u)).
Proof.
  intros Hin. apply (In_nth _ _ (0, 0)) in Hin.
  destruct Hin as (i & Hi & Hp). rewrite sample_cycloid_length in Hi.
  exists i. split; [exact Hi |].
  rewrite <- Hp. apply sample_cycloid_nth. exact Hi.
Qed.

Lemma sample_cycloid_translate (xa ya vx vy dx r th : R) :
  sample_cycloid (xa + vx) (ya + vy) dx r th
  = map (translate (vx, vy)) (sample_cycloid xa ya dx r th).
Proof.
  unfold sample_cycloid. cbv zeta.
  rewrite !combine_map_pair, map_map. apply map_ext. intros t.
  unfold translate. cbn [fst snd]. f_equal; ring.
Qed.

Lemma translate_dx (v A B : point) :
  fst (translate v B) - fst (translate v A) = fst B - fst A.
Proof. unfold translate. cbn [fst]. ring. Qed.

Lemma translate_dy (v A B : point) :
  snd (translate v B) - snd (translate v A) = snd B - snd A.
Proof. unfold translate. cbn [snd]. ring. Qed.

Section SolverFacts2.

Variable fsolve : (R -> R) -> R -> outcome R.

(** X10.  Every point of the cycloid polyline of a general solution is at
    the height of A or below, by at most the diameter [2 r]; and when the
    finder's angle is not negative, every point is on the side of A where B
    is. *)
Theorem polyline_stays_below_start
  (A B : point) (s : PathSolution) (r : R) (p : point) :
  calculate_paths fsolve A B = Return (Some s) ->
  cycloid_r s = Fin r ->
  In p (cycloid_points s) ->
  snd A <= snd p <= snd A + 2 * r /\
  (0 <= cycloid_theta_b s ->
   (0 < fst B - fst A -> fst A <= fst p) /\
   (fst B - fst A < 0 -> fst p <= fst A)).
Proof.
  intros Hs Hr Hin.
  destruct (solve_some_ok _ _ _ _ Hs) as ((_ & _ & _ & _ & Hrr) & _).
  rewrite Hr in Hrr.
  apply solve_some_inv in Hs.
  destruct Hs as [Hdy [[_ Es] | [_ [th [_ [Hc Es]]]]]]; rewrite Es in *;
    [discriminate |].
  unfold general_solution in Hr, Hin |- *;
    cbn [cycloid_r cycloid_points cycloid_theta_b] in Hr, Hin |- *.
  injection Hr as Er. rewrite Er in Hin.
  apply sample_cycloid_In in Hin. destruct Hin as (i & Hi & ->).
  cbv zeta. cbn [fst snd].
  set (u := INR i * th / 99).
  destruct (COS_bound u) as [Hc1 Hc2].
  split; [split; nra |].
  intros Hth.
  assert (Hu : 0 <= u).
  { unfold u. pose proof (pos_INR i). apply Rmult_le_pos; [nra | lra]. }
  pose proof (sin_le_x u Hu) as Hsin.
  split; intros Hdx.
  - rewrite np_sign_pos by exact Hdx. nra.
  - rewrite np_sign_neg by exact Hdx. nra.
Qed.

(** X11.  Moving A and B by the same vector does not change the lengths,
    times, radius or angle of the solution, and moves both polylines by
    that vector. *)
Theorem solution_is_translation_invariant
  (v A B : point) (s : PathSolution) :
  calculate_paths fsolve A B = Return (Some s) ->
  exists s',
    calculate_paths fsolve (translate v A) (translate v B)
      = Return (Some s') /\
    line_L s' = line_L s /\ line_a s' = line_a s /\ line_t s' = line_t s /\
    cycloid_t s' = cycloid_t s /\ cycloid_r s' = cycloid_r s /\
    cycloid_theta_b s' = cycloid_theta_b s /\
    line_points s' = map (translate v) (line_points s) /\
    cycloid_points s' = map (translate v) (cycloid_points s).
Proof.
  intros Hs. apply solve_some_inv in Hs.
  destruct Hs as [Hdy [[Hdx ->] | [Hdx [th [Hth [Hc ->]]]]]].
  - exists (vertical_solution (translate v A) (translate v B)). split.
    + apply solve_vertical;
        [rewrite translate_dy | rewrite translate_dx]; assumption.
    + unfold vertical_solution;
        cbn [line_L line_a line_t cycloid_t cycloid_r cycloid_theta_b
             line_points cycloid_points].
      rewrite translate_dx, translate_dy. repeat split; reflexivity.
  - exists (general_solution (translate v A) (translate v B) th). split.
    + apply solve_general_root;
        [rewrite translate_dy; exact Hdy | rewrite translate_dx; exact Hdx
        | rewrite translate_dx, translate_dy; exact Hth | exact Hc].
    + unfold general_solution;
        cbn [line_L line_a line_t cycloid_t cycloid_r cycloid_theta_b
             line_points cycloid_points].
      rewrite translate_dx, translate_dy.
      destruct A as [xa ya], v as [vx vy].
      change (fst (translate (vx, vy) (xa, ya))) with (xa + vx).
      change (snd (translate (vx, vy) (xa, ya))) with (ya + vy).
      rewrite sample_cycloid_translate. cbn [fst snd].
      repeat split; reflexivity.
Qed.

End SolverFacts2.

Lemma polyline_stays_below_start_witness :
  let s := general_solution origin half_arch_end PI in
  let r := (snd half_arch_end - snd origin) / (1 - cos PI) in
  snd origin <= snd (nth 0 (cycloid_points s) (0, 0)) <= snd origin + 2 * r /\
  (0 <= cycloid_theta_b s ->
   (0 < fst half_arch_end - fst origin ->
    fst origin <= fst (nth 0 (cycloid_points s) (0, 0))) /\
   (fst half_arch_end - fst origin < 0 ->
    fst (nth 0 (cycloid_points s) (0, 0)) <= fst origin)).
Proof.
  intros s r.
  apply (polyline_stays_below_start finder_pi origin half_arch_end s r).
  - exact half_arch_solved.
  - reflexivity.
  - apply nth_In. unfold s, general_solution; cbn [cycloid_points].
    rewrite sample_cycloid_length. lia.
Defined.

Lemma solution_is_translation_invariant_witness :
  let s := general_solution origin half_arch_end PI in
  exists s',
    calculate_paths finder_pi (translate (100, 50) origin)
      (translate (100, 50) half_arch_end) = Return (Some s') /\
    line_L s' = line_L s /\ line_a s' = line_a s /\ line_t s' = line_t s /\
    cycloid_t s' = cycloid_t s /\ cycloid_r s' = cycloid_r s /\
    cycloid_theta_b s' = cycloid_theta_b s /\
    line_points s' = map (translate (100, 50)) (line_points s) /\
    cycloid_points s' = map (translate (100, 50)) (cycloid_points s).
Proof.
  intros s.
  apply (solution_is_translation_invariant finder_pi (100, 50)
           origin half_arch_end s).
  exact half_arch_solved.
Defined.

(** * The camera, the layout and the main loop *)

(** ** Truncation *)

Lemma Int_part_bounds (x : R) : IZR (Int_part x) <= x < IZR (Int_part x) + 1.
Proof.
  destruct (base_Int_part x) as [H1 H2]. lra.
Qed.

Lemma Int_part_IZR (n : Z) : Int_part (IZR n) = n.
Proof.
  symmetry. apply Int_part_spec. lra.
Qed.

Lemma py_int_IZR (n : Z) : py_int (IZR n) = n.
Proof.
  unfold py_int. destruct (Rle_dec 0 (IZR n)).
  - apply Int_part_IZR.
  - rewrite <- opp_IZR, Int_part_IZR. lia.
Qed.

(** [int] drops less than one unit, towards zero. *)
Lemma py_int_nonneg (x : R) :
  0 <= x -> IZR (py_int x) <= x < IZR (py_int x) + 1.
Proof.
  intros Hx. unfold py_int. destruct (Rle_dec 0 x); [| lra].
  apply Int_part_bounds.
Qed.

Lemma py_int_neg (x : R) :
  x < 0 -> IZR (py_int x) - 1 < x <= IZR (py_int x).
Proof.
  intros Hx. unfold py_int. destruct (Rle_dec 0 x); [lra |].
  rewrite opp_IZR. pose proof (Int_part_bounds (- x)). lra.
Qed.

Lemma py_int_close (x : R) : Rabs (IZR (py_int x) - x) < 1.
Proof.
  destruct (Rle_dec 0 x) as [Hx | Hx].
  - pose proof (py_int_nonneg x Hx). apply Rabs_def1; lra.
  - pose proof (py_int_neg x ltac:(lra)). apply Rabs_def1; lra.
Qed.

(** On the non-negative side, [int] commutes with adding an integer. *)
Lemma py_int_add_nonneg (y : R) (k : Z) :
  0 <= y -> 0 <= y + IZR k -> py_int (y + IZR k) = (py_int y + k)%Z.
Proof.
  intros Hy Hyk.
  pose proof (py_int_nonneg y Hy) as [H1 H2].
  unfold py_int at 1. destruct (Rle_dec 0 (y + IZR k)); [| lra].
  symmetry. apply Int_part_spec. rewrite plus_IZR. lra.
Qed.

(** In general it does so up to one unit. *)
Lemma py_int_add_bound (y : R) (k : Z) :
  (py_int y + k - 1 <= py_int (y + IZR k) <= py_int y + k + 1)%Z.
Proof.
  pose proof (py_int_close y) as H1. pose proof (py_int_close (y + IZR k)) as H2.
  apply Rabs_def2 in H1. apply Rabs_def2 in H2.
  split.
  - assert (IZR (py_int y + k - 2) < IZR (py_int (y + IZR k)))
      by (rewrite minus_IZR, plus_IZR; lra).
    apply lt_IZR in H. lia.
  - assert (IZR (py_int (y + IZR k)) < IZR (py_int y + k + 2))
      by (rewrite !plus_IZR; lra).
    apply lt_IZR in H. lia.
Qed.

(** ** Conversions between screen and world *)

Lemma screen_to_world_ok (p off : pixel) (z : R) :
  z <> 0 ->
  screen_to_world p z off
  = Return (IZR (fst p - fst off) / z, IZR (snd p - snd off) / z).
Proof.
  intros Hz. unfold screen_to_world.
  rewrite !py_div_ok by exact Hz. reflexivity.
Qed.

(** X13.  The other way round, for a positive zoom: the pixel of a world
    point converts back to a world point less than one pixel, that is
    [1 / zoom] world units, away in each coordinate. *)
Theorem world_screen_world_error (w : point) (off : pixel) (z : R) :
  0 < z ->
  exists w',
    screen_to_world (world_to_screen w z off) z off = Return w' /\
    Rabs (fst w' - fst w) < 1 / z /\
    Rabs (snd w' - snd w) < 1 / z.
Proof.
  intros Hz. rewrite screen_to_world_ok by lra.
  eexists. split; [reflexivity |].
  unfold world_to_screen. cbn [fst snd].
  assert (Hgen : forall x o,
    Rabs (IZR (py_int (x * z + IZR o) - o) / z - x) < 1 / z).
  { intros x o. pose proof (py_int_close (x * z + IZR o)) as Hc.
    replace (IZR (py_int (x * z + IZR o) - o) / z - x)
      with ((IZR (py_int (x * z + IZR o)) - (x * z + IZR o)) * / z)
      by (rewrite minus_IZR; field; lra).
    rewrite Rabs_mult, (Rabs_right (/ z))
      by (apply Rle_ge, Rlt_le, Rinv_0_lt_compat; exact Hz).
    unfold Rdiv. apply Rmult_lt_compat_r;
      [apply Rinv_0_lt_compat; exact Hz | exact Hc]. }
  split; apply Hgen.
Qed.

Lemma Rmax_tenth_ge (x : R) : 0.1 <= Rmax 0.1 x.
Proof. apply Rmax_l. Qed.

Lemma world_to_screen_shift (w : point) (z : R) (off d : pixel) :
  let q := world_to_screen w z off in
  let q' := world_to_screen w z (fst off + fst d, snd off + snd d)%Z in
  (fst q + fst d - 1 <= fst q' <= fst q + fst d + 1)%Z /\
  (snd q + snd d - 1 <= snd q' <= snd q + snd d + 1)%Z /\
  (0 <= fst w * z + IZR (fst off) ->
   0 <= fst w * z + IZR (fst off) + IZR (fst d) ->
   fst q' = (fst q + fst d)%Z) /\
  (0 <= snd w * z + IZR (snd off) ->
   0 <= snd w * z + IZR (snd off) + IZR (snd d) ->
   snd q' = (snd q + snd d)%Z).
Proof.
  unfold world_to_screen. cbn [fst snd].
  replace (fst w * z + IZR (fst off + fst d))
    with (fst w * z + IZR (fst off) + IZR (fst d))
    by (rewrite plus_IZR; ring).
  replace (snd w * z + IZR (snd off + snd d))
    with (snd w * z + IZR (snd off) + IZR (snd d))
    by (rewrite plus_IZR; ring).
  split; [apply py_int_add_bound |]. split; [apply py_int_add_bound |].
  split; intros; apply py_int_add_nonneg; assumption.
Qed.

(** X14.  Zooming about the cursor: when the step returns, the new zoom
    is the old one times the factor, but at least 0.1, and the world point
    that was under the cursor is drawn at most one pixel away from the
    cursor in each coordinate. *)
Theorem zoom_keeps_cursor_point
  (mouse : pixel) (factor : R) (app app' : App) :
  zoom_about mouse factor app = Return app' ->
  exists w,
    screen_to_world mouse (zoom app) (offset app) = Return w /\
    zoom app' = Rmax 0.1 (zoom app * factor) /\
    0.1 <= zoom app' /\
    let q := world_to_screen w (zoom app') (offset app') in
    (fst mouse - 1 <= fst q <= fst mouse + 1)%Z /\
    (snd mouse - 1 <= snd q <= snd mouse + 1)%Z.
Proof.
  unfold zoom_about. intros Hrun.
  destruct (screen_to_world mouse (zoom app) (offset app)) as [w | e];
    cbn [bind] in Hrun; [| discriminate].
  cbv zeta in Hrun. injection Hrun as <-. exists w. split; [reflexivity |].
  cbn [set_camera zoom offset]. cbv zeta.
  set (z' := Rmax 0.1 (zoom app * factor)).
  set (after := world_to_screen w z' (offset app)).
  split; [reflexivity |]. split; [apply Rmax_tenth_ge |].
  destruct (world_to_screen_shift w z' (offset app)
              (fst mouse - fst after, snd mouse - snd after)%Z)
    as (Hx & Hy & _).
  cbn [fst snd] in Hx, Hy. fold after in Hx, Hy.
  change (py_int (fst w * z' + IZR (fst (offset app)))) with (fst after).
  change (py_int (snd w * z' + IZR (snd (offset app)))) with (snd after).
  split; lia.
Qed.

(** ** Events *)

Section EventFacts.

Variable fsolve : (R -> R) -> R -> outcome R.

(** X15.  Dragging with the right button held: the offset grows by the
    motion and nothing else changes, so every world point is drawn one
    motion further, up to one pixel in each coordinate. *)
Theorem pan_moves_the_picture
  (reset_rect click_rect : Rect) (mouse rel : pixel) (w : point) (app : App) :
  panning app = true ->
  exists app',
    handle_event fsolve reset_rect click_rect mouse (MOUSEMOTION rel) app
      = Return app' /\
    zoom app' = zoom app /\ app_phase app' = app_phase app /\
    offset app'
    = (fst (offset app) + fst rel, snd (offset app) + snd rel)%Z /\
    let q := world_to_screen w (zoom app) (offset app) in
    let q' := world_to_screen w (zoom app') (offset app') in
    (fst q + fst rel - 1 <= fst q' <= fst q + fst rel + 1)%Z /\
    (snd q + snd rel - 1 <= snd q' <= snd q + snd rel + 1)%Z.
Proof.
  intros Hpan. cbn [handle_event]. rewrite Hpan.
  eexists. split; [reflexivity |].
  cbn [set_camera zoom offset app_phase].
  split; [reflexivity |]. split; [reflexivity |]. split; [reflexivity |].
  destruct (world_to_screen_shift w (zoom app) (offset app) rel)
    as (Hx & Hy & _).
  split; assumption.
Qed.

Lemma zoom_about_ok (mouse : pixel) (factor : R) (app : App) :
  zoom app <> 0 ->
  exists app',
    zoom_about mouse factor app = Return app' /\
    0.1 <= zoom app' /\
    app_phase app' = app_phase app /\ running app' = running app.
Proof.
  intros Hz. unfold zoom_about. rewrite screen_to_world_ok by exact Hz.
  cbn [bind]. cbv zeta. eexists. split; [reflexivity |].
  cbn [set_camera zoom app_phase running].
  split; [apply Rmax_tenth_ge |]. split; reflexivity.
Qed.



End EventFacts.

(** ** The main loop *)

Section LoopFacts.

Variable fsolve : (R -> R) -> R -> outcome R.





(** An event other than a left click on the reset button leaves a running
    simulation as it is. *)
Lemma handle_event_keeps_sim
  (reset_rect click_rect : Rect) (mouse : pixel) (ev : event)
  (app app' : App) (sim : Sim) :
  app_phase app = Simulating sim ->
  (ev = MOUSEBUTTONDOWN 1 -> collidepoint reset_rect mouse = false) ->
  handle_event fsolve reset_rect click_rect mouse ev app = Return app' ->
  app_phase app' = Simulating sim.
Proof.
  intros Hph Hnoreset Hrun.
  assert (Hzoom : forall factor app1,
            zoom_about mouse factor app = Return app1 ->
            app_phase app1 = Simulating sim).
  { intros factor app1 Hz. unfold zoom_about in Hz.
    destruct (screen_to_world mouse (zoom app) (offset app)) as [w | e];
      cbn [bind] in Hz; [| discriminate].
    injection Hz as <-. exact Hph. }
  destruct ev as [| button | button | rel | y | k ch | w h |];
    cbn [handle_event] in Hrun.
  - injection Hrun as <-. exact Hph.
  - destruct (button =? 3)%Z; [injection Hrun as <-; exact Hph |].
    destruct (Z.eqb_spec button 1) as [-> | Hne];
      [| injection Hrun as <-; exact Hph].
    rewrite (Hnoreset eq_refl) in Hrun.
    destruct (collidepoint click_rect mouse); cbn [negb] in Hrun;
      [| injection Hrun as <-; exact Hph].
    destruct (screen_to_world mouse (zoom app) (offset app)) as [w | e];
      cbn [bind] in Hrun; [| discriminate].
    unfold sim_click in Hrun. rewrite Hph in Hrun.
    injection Hrun as <-. exact Hph.
  - destruct (button =? 3)%Z; injection Hrun as <-; exact Hph.
  - destruct (panning app); injection Hrun as <-; exact Hph.
  - apply (Hzoom _ _ Hrun).
  - destruct k;
      try (injection Hrun as <-; exact Hph);
      repeat match type of Hrun with
             | (if ?c then _ else _) = _ => destruct c
             end;
      try (apply (Hzoom _ _ Hrun));
      injection Hrun as <-; exact Hph.
  - injection Hrun as <-. exact Hph.
  - injection Hrun as <-. exact Hph.
Qed.

(** X17.  While a simulation runs, the events of a frame do not touch it
    unless one of them is a left click with the cursor on the reset
    button: panning, zooming, keys and clicks elsewhere leave the points,
    the solution, the clock and the beads alone.  When the frame returns,
    it has advanced the simulation by exactly one update of
    [clock_time / 1000] seconds. *)
Theorem events_do_not_touch_the_simulation
  (inp : frame_input) (app app' : App) (sim : Sim) :
  app_phase app = Simulating sim ->
  (In (MOUSEBUTTONDOWN 1) (events inp) ->
   collidepoint
     (RESET_BUTTON_RECT (fst (screen_size inp)) (snd (screen_size inp)))
     (mouse_pos inp) = false) ->
  frame fsolve inp app = Return app' ->
  exists sim',
    app_phase app' = Simulating sim' /\
    simulation_update (IZR (clock_time inp) / 1000) sim = Return sim'.
Proof.
  intros Hph Hnoreset Hrun. unfold frame in Hrun.
  destruct (screen_size inp) as [sw sh]. cbn [fst snd] in Hnoreset.
  set (reset_rect := RESET_BUTTON_RECT sw sh) in *.
  set (click_rect := click_area_rect sw sh (subtitle_w inp)) in *.
  assert (Hevs : forall evs app0 app1,
    app_phase app0 = Simulating sim ->
    (In (MOUSEBUTTONDOWN 1) evs ->
     collidepoint reset_rect (mouse_pos inp) = false) ->
    handle_events fsolve reset_rect click_rect (mouse_pos inp) evs app0
      = Return app1 ->
    app_phase app1 = Simulating sim).
  { induction evs as [| ev evs IH]; intros app0 app1 Hp0 Hno Hr; cbn in Hr.
    - injection Hr as <-. exact Hp0.
    - destruct (handle_event fsolve reset_rect click_rect (mouse_pos inp)
                  ev app0) as [app2 | e] eqn:Hev; cbn [bind] in Hr;
        [| discriminate].
      apply (IH app2 app1); [| intros Hin; apply Hno; right; exact Hin
                             | exact Hr].
      apply (handle_event_keeps_sim _ _ _ _ _ _ _ Hp0) in Hev; [exact Hev |].
      intros ->. apply Hno. left. reflexivity. }
  destruct (handle_events fsolve reset_rect click_rect (mouse_pos inp)
              (events inp) app) as [app1 | e] eqn:Hev;
    cbn [bind] in Hrun; [| discriminate].
  apply (Hevs _ _ _ Hph Hnoreset) in Hev. rewrite Hev in Hrun.
  destruct (simulation_update (IZR (clock_time inp) / 1000) sim)
    as [sim' | e]; cbn [bind] in Hrun; [| discriminate].
  injection Hrun as <-. exists sim'. split; reflexivity.
Qed.

End LoopFacts.

Section ClickFacts.

Variable fsolve : (R -> R) -> R -> outcome R.

(** X18.  Two left clicks in the click area, under one camera with a
    positive zoom, starting in ['pick_a'].  The first makes the world point
    of the clicked pixel point A.  The second is rejected exactly when its
    pixel is not lower on the screen than the first; otherwise the solver
    is called on the two world points, and the simulation is released from
    its solution if there is one. *)
Theorem two_clicks_start_the_simulation
  (reset_rect click_rect : Rect) (p1 p2 : pixel) (app : App) :
  0 < zoom app ->
  app_phase app = PickA ->
  collidepoint reset_rect p1 = false -> collidepoint click_rect p1 = true ->
  collidepoint reset_rect p2 = false -> collidepoint click_rect p2 = true ->
  exists a b app1,
    screen_to_world p1 (zoom app) (offset app) = Return a /\
    screen_to_world p2 (zoom app) (offset app) = Return b /\
    handle_event fsolve reset_rect click_rect p1 (MOUSEBUTTONDOWN 1) app
      = Return app1 /\
    app1 = set_phase (PickB a) app /\
    ((snd p2 <= snd p1)%Z ->
     handle_event fsolve reset_rect click_rect p2 (MOUSEBUTTONDOWN 1) app1
       = Return app1) /\
    ((snd p1 < snd p2)%Z ->
     handle_event fsolve reset_rect click_rect p2 (MOUSEBUTTONDOWN 1) app1
       = (r <- calculate_paths fsolve a b ;;
          Return match r with
                 | Some s => set_phase (Simulating (release a b s)) app1
                 | None => app1
                 end)).
Proof.
  intros Hz Hph Hr1 Hc1 Hr2 Hc2.
  assert (Hz0 : zoom app <> 0) by lra.
  set (a := (IZR (fst p1 - fst (offset app)) / zoom app,
             IZR (snd p1 - snd (offset app)) / zoom app)).
  set (b := (IZR (fst p2 - fst (offset app)) / zoom app,
             IZR (snd p2 - snd (offset app)) / zoom app)).
  exists a, b, (set_phase (PickB a) app).
  split; [apply screen_to_world_ok; exact Hz0 |].
  split; [apply screen_to_world_ok; exact Hz0 |].
  split.
  { cbn [handle_event]. change (1 =? 3)%Z with false.
    change (1 =? 1)%Z with true. cbv iota. rewrite Hr1, Hc1. cbn [negb].
    rewrite screen_to_world_ok by exact Hz0. cbn [bind].
    unfold sim_click. rewrite Hph. reflexivity. }
  split; [reflexivity |].
  assert (Hsecond :
    handle_event fsolve reset_rect click_rect p2 (MOUSEBUTTONDOWN 1)
      (set_phase (PickB a) app)
    = (started <- pick_point_b fsolve a b ;;
       match started with
       | Some sim => Return (set_phase (Simulating sim) (set_phase (PickB a) app))
       | None => Return (set_phase (PickB a) app)
       end)).
  { cbn [handle_event]. change (1 =? 3)%Z with false.
    change (1 =? 1)%Z with true. cbv iota. rewrite Hr2, Hc2. cbn [negb].
    cbn [set_phase zoom offset].
    rewrite screen_to_world_ok by exact Hz0. cbn [bind].
    unfold sim_click. cbn [app_phase]. reflexivity. }
  assert (Hcmp : snd b <= snd a <-> (snd p2 <= snd p1)%Z).
  { unfold a, b. cbn [snd]. split.
    - intros Hle. apply le_IZR.
      apply (Rmult_le_compat_r (zoom app)) in Hle; [| lra].
      unfold Rdiv in Hle. rewrite !Rmult_assoc, Rinv_l, !Rmult_1_r in Hle
        by exact Hz0.
      rewrite !minus_IZR in Hle. lra.
    - intros Hle. apply IZR_le in Hle.
      unfold Rdiv. apply Rmult_le_compat_r;
        [apply Rlt_le, Rinv_0_lt_compat; exact Hz |].
      rewrite !minus_IZR. lra. }
  split.
  - intros Hle. rewrite Hsecond. unfold pick_point_b.
    destruct (Rle_dec (snd b) (snd a)) as [_ | Hn]; [reflexivity |].
    exfalso. apply Hn, Hcmp. exact Hle.
  - intros Hlt. rewrite Hsecond. unfold pick_point_b.
    destruct (Rle_dec (snd b) (snd a)) as [Hle | _].
    { apply Hcmp in Hle. lia. }
    destruct (calculate_paths fsolve a b) as [[s |] | e]; reflexivity.
Qed.

End ClickFacts.

(** ** Layout *)

(** X19.  In a window at least 294 pixels high the click area is at least
    135 pixels high and ends at or above the top of the reset button, so no
    pixel is in both rectangles: a click that starts or feeds a simulation
    is never also a reset. *)
Theorem click_area_clear_of_reset_button
  (screen_width screen_height subtitle_w : Z) :
  (294 <= screen_height)%Z ->
  let area := click_area_rect screen_width screen_height subtitle_w in
  let button := RESET_BUTTON_RECT screen_width screen_height in
  (135 <= rect_height area)%Z /\
  (rect_top area + rect_height area <= rect_top button)%Z /\
  forall p, collidepoint area p = true -> collidepoint button p = false.
Proof.
  intros Hh area button.
  unfold click_area_rect, RESET_BUTTON_RECT in area, button.
  cbn [rect_top] in area.
  set (av := Z.max 150 (screen_height - BUTTON_HEIGHT - 30 - 120)) in *.
  set (ch := py_int (IZR av * 0.9)) in *.
  set (ct := py_int (IZR (80 + (screen_height - BUTTON_HEIGHT - 30)) / 2
                     - IZR ch / 2)) in *.
  unfold BUTTON_HEIGHT in *.
  assert (Hav : (150 <= av)%Z /\ (av = 150 \/ av = screen_height - 200)%Z)
    by (unfold av; lia).
  destruct Hav as [Hav1 Hav2].
  assert (Hav1R : 150 <= IZR av) by (apply IZR_le in Hav1; exact Hav1).
  assert (HhR : 294 <= IZR screen_height)
    by (apply IZR_le in Hh; exact Hh).
  destruct (py_int_nonneg (IZR av * 0.9)) as [Hch1 Hch2]; [lra |].
  fold ch in Hch1, Hch2.
  assert (Hch135 : (135 <= ch)%Z).
  { assert (H : IZR 134 < IZR ch) by lra. apply lt_IZR in H. lia. }
  assert (Hchh : IZR ch < IZR screen_height - 158).
  { destruct Hav2 as [E | E]; rewrite E in Hch1.
    - lra.
    - rewrite minus_IZR in Hch1. lra. }
  set (v := IZR (80 + (screen_height - 50 - 30)) / 2 - IZR ch / 2) in *.
  assert (Hv : v = (IZR screen_height - IZR ch) / 2).
  { unfold v. rewrite plus_IZR, !minus_IZR. field. }
  destruct (py_int_nonneg v) as [Hct1 _]; [rewrite Hv; lra |].
  fold ct in Hct1.
  assert (Hbottom : (ct + ch <= screen_height - 50 - 30)%Z).
  { assert (H : IZR (ct + ch) < IZR (screen_height - 79)).
    { rewrite plus_IZR, minus_IZR. rewrite Hv in Hct1. lra. }
    apply lt_IZR in H. lia. }
  cbn [rect_height rect_top area button].
  split; [exact Hch135 |]. split; [exact Hbottom |].
  intros [px py] Hin. unfold collidepoint in *.
  cbn [rect_left rect_top rect_width rect_height area button fst snd] in *.
  apply andb_true_iff in Hin. destruct Hin as [_ Hy].
  apply Z.ltb_lt in Hy.
  apply andb_false_iff. left. apply andb_false_iff. right.
  apply Z.leb_gt. lia.
Qed.

(** ** Leaving the loop *)

Section QuitFacts.

Variable fsolve : (R -> R) -> R -> outcome R.

Lemma zoom_about_running (mouse : pixel) (factor : R) (app app' : App) :
  zoom_about mouse factor app = Return app' -> running app' = running app.
Proof.
  unfold zoom_about. intros Hz.
  destruct (screen_to_world mouse (zoom app) (offset app)) as [w | e];
    cbn [bind] in Hz; [| discriminate].
  injection Hz as <-. reflexivity.
Qed.

(** No event sets [running] again once it is cleared. *)
Lemma handle_event_stays_stopped
  (reset_rect click_rect : Rect) (mouse : pixel) (ev : event) (app app' : App) :
  running app = false ->
  handle_event fsolve reset_rect click_rect mouse ev app = Return app' ->
  running app' = false.
Proof.
  intros Hstop Hrun.
  destruct ev as [| button | button | rel | y | k ch | w h |];
    cbn [handle_event] in Hrun.
  - injection Hrun as <-. reflexivity.
  - destruct (button =? 3)%Z; [injection Hrun as <-; exact Hstop |].
    destruct (button =? 1)%Z; [| injection Hrun as <-; exact Hstop].
    destruct (collidepoint reset_rect mouse);
      [injection Hrun as <-; exact Hstop |].
    destruct (collidepoint click_rect mouse); cbn [negb] in Hrun;
      [| injection Hrun as <-; exact Hstop].
    destruct (screen_to_world mouse (zoom app) (offset app)) as [w | e];
      cbn [bind] in Hrun; [| discriminate].
    unfold sim_click in Hrun.
    destruct (app_phase app) as [| a | sim].
    + injection Hrun as <-. exact Hstop.
    + destruct (pick_point_b fsolve a w) as [[sim |] | e];
        cbn [bind] in Hrun; try discriminate;
        injection Hrun as <-; exact Hstop.
    + injection Hrun as <-. exact Hstop.
  - destruct (button =? 3)%Z; injection Hrun as <-; exact Hstop.
  - destruct (panning app); injection Hrun as <-; exact Hstop.
  - rewrite (zoom_about_running _ _ _ _ Hrun). exact Hstop.
  - destruct k;
      try (injection Hrun as <-; (reflexivity || exact Hstop));
      repeat match type of Hrun with
             | (if ?c then _ else _) = _ => destruct c
             end;
      try (rewrite (zoom_about_running _ _ _ _ Hrun); exact Hstop);
      injection Hrun as <-; exact Hstop.
  - injection Hrun as <-. exact Hstop.
  - injection Hrun as <-. exact Hstop.
Qed.

Lemma handle_events_stays_stopped
  (reset_rect click_rect : Rect) (mouse : pixel) (evs : list event) :
  forall app app',
    running app = false ->
    handle_events fsolve reset_rect click_rect mouse evs app = Return app' ->
    running app' = false.
Proof.
  induction evs as [| ev evs IH]; intros app app' Hstop Hrun; cbn in Hrun.
  - injection Hrun as <-. exact Hstop.
  - destruct (handle_event fsolve reset_rect click_rect mouse ev app)
      as [app1 | e] eqn:Hev; cbn [bind] in Hrun; [| discriminate].
    apply (IH app1 app'); [| exact Hrun].
    apply (handle_event_stays_stopped _ _ _ _ _ _ Hstop Hev).
Qed.

(** X20.  A frame that receives a [QUIT] event, or a key press of Escape
    or Q, is the last one: the rest of its events are still handled and the
    simulation is still updated, and what the frame returns is what the
    main loop returns, whatever frames would follow. *)
Theorem quit_ends_the_loop
  (inp : frame_input) (rest : list frame_input) (app app' : App) (ev : event) :
  running app = true ->
  In ev (events inp) ->
  (ev = QUIT \/ exists ch, ev = KEYDOWN K_ESCAPE ch \/ ev = KEYDOWN K_q ch) ->
  frame fsolve inp app = Return app' ->
  running app' = false /\
  main_loop fsolve (inp :: rest) app = Return app'.
Proof.
  intros Hgo Hin Hquit Hframe.
  assert (Hstop : running app' = false).
  { unfold frame in Hframe. destruct (screen_size inp) as [sw sh].
    set (reset_rect := RESET_BUTTON_RECT sw sh) in *.
    set (click_rect := click_area_rect sw sh (subtitle_w inp)) in *.
    assert (Hevs : forall evs app0 app1,
      In ev evs ->
      handle_events fsolve reset_rect click_rect (mouse_pos inp) evs app0
        = Return app1 ->
      running app1 = false).
    { induction evs as [| e0 evs IH]; intros app0 app1 Hi Hr; [destruct Hi |].
      cbn in Hr.
      destruct (handle_event fsolve reset_rect click_rect (mouse_pos inp)
                  e0 app0) as [app2 | e] eqn:Hev; cbn [bind] in Hr;
        [| discriminate].
      destruct Hi as [-> | Hi].
      - eapply handle_events_stays_stopped; [| exact Hr].
        destruct Hquit as [-> | (ch & [-> | ->])]; cbn [handle_event] in Hev;
          injection Hev as <-; reflexivity.
      - apply (IH app2 app1 Hi Hr). }
    destruct (handle_events fsolve reset_rect click_rect (mouse_pos inp)
                (events inp) app) as [app1 | e] eqn:Hev;
      cbn [bind] in Hframe; [| discriminate].
    apply (Hevs _ _ _ Hin) in Hev.
    destruct (app_phase app1) as [| a | sim].
    - injection Hframe as <-. exact Hev.
    - injection Hframe as <-. exact Hev.
    - destruct (simulation_update (IZR (clock_time inp) / 1000) sim)
        as [sim' | e]; cbn [bind] in Hframe; [| discriminate].
      injection Hframe as <-. exact Hev. }
  split; [exact Hstop |].
  cbn [main_loop]. rewrite Hgo, Hframe. cbn [bind].
  destruct rest as [| inp' rest']; cbn [main_loop]; [reflexivity |].
  rewrite Hstop. reflexivity.
Qed.

End QuitFacts.

(** ** Instances for the camera and the main loop *)

Lemma half_arch_app_ok : app_ok half_arch_app.
Proof.
  split; cbn; [lra |].
  apply general_solution_ok; [exact half_arch_below | exact cos_PI_neq_1].
Qed.

Lemma world_screen_world_error_witness :
  exists w',
    screen_to_world (world_to_screen half_arch_end 1.1 (10, -5)%Z) 1.1
      (10, -5)%Z = Return w' /\
    Rabs (fst w' - fst half_arch_end) < 1 / 1.1 /\
    Rabs (snd w' - snd half_arch_end) < 1 / 1.1.
Proof.
  apply (world_screen_world_error half_arch_end (10, -5)%Z 1.1). lra.
Defined.

Lemma zoom_keeps_cursor_point_witness :
  exists app' w,
    zoom_about (300, 200)%Z 1.1 initial_app = Return app' /\
    screen_to_world (300, 200)%Z (zoom initial_app) (offset initial_app)
      = Return w /\
    zoom app' = Rmax 0.1 (zoom initial_app * 1.1) /\
    0.1 <= zoom app' /\
    let q := world_to_screen w (zoom app') (offset app') in
    (fst (300, 200) - 1 <= fst q <= fst (300, 200) + 1)%Z /\
    (snd (300, 200) - 1 <= snd q <= snd (300, 200) + 1)%Z.
Proof.
  destruct (zoom_about_ok (300, 200)%Z 1.1 initial_app) as (app' & Hrun & _).
  { cbn [zoom initial_app]. lra. }
  exists app'.
  destruct (zoom_keeps_cursor_point (300, 200)%Z 1.1 initial_app app' Hrun)
    as (w & Hw).
  exists w. split; [exact Hrun | exact Hw].
Defined.

Lemma pan_moves_the_picture_witness :
  exists app',
    handle_event finder_pi (RESET_BUTTON_RECT 1100 700)
      (click_area_rect 1100 700 900) (300, 200)%Z (MOUSEMOTION (5, -3)%Z)
      dragging_app = Return app' /\
    zoom app' = zoom dragging_app /\
    app_phase app' = app_phase dragging_app /\
    offset app'
    = (fst (offset dragging_app) + fst (5, -3),
       snd (offset dragging_app) + snd (5, -3))%Z /\
    let q := world_to_screen half_arch_end (zoom dragging_app)
               (offset dragging_app) in
    let q' := world_to_screen half_arch_end (zoom app') (offset app') in
    (fst q + fst (5, -3) - 1 <= fst q' <= fst q + fst (5, -3) + 1)%Z /\
    (snd q + snd (5, -3) - 1 <= snd q' <= snd q + snd (5, -3) + 1)%Z.
Proof.
  apply (pan_moves_the_picture finder_pi (RESET_BUTTON_RECT 1100 700)
           (click_area_rect 1100 700 900) (300, 200)%Z (5, -3)%Z
           half_arch_end dragging_app).
  reflexivity.
Defined.

Lemma quit_frame_result :
  frame finder_pi quit_frame initial_app
  = Return (set_running false initial_app).
Proof. reflexivity. Qed.


Lemma pan_frame_runs :
  exists app', frame finder_pi pan_frame half_arch_app = Return app'.
Proof.
  destruct half_arch_app_ok as [_ Hsol]. cbn [half_arch_app set_phase app_phase] in Hsol.
  destruct (simulation_update_summary (IZR 16 / 1000) _ Hsol)
    as (sim' & Hsim & _).
  eexists. unfold frame, pan_frame.
  cbn [screen_size events mouse_pos clock_time subtitle_w handle_events
       handle_event bind].
  change (3 =? 3)%Z with true. cbv iota.
  cbn [bind handle_event set_panning panning half_arch_app set_phase
       initial_app app_phase zoom offset running set_camera].
  rewrite Hsim. cbn [bind]. reflexivity.
Qed.

Lemma events_do_not_touch_the_simulation_witness :
  exists app' sim',
    frame finder_pi pan_frame half_arch_app = Return app' /\
    app_phase app' = Simulating sim' /\
    simulation_update (IZR (clock_time pan_frame) / 1000)
      (release origin half_arch_end
         (general_solution origin half_arch_end PI)) = Return sim'.
Proof.
  destruct pan_frame_runs as (app' & Hrun). exists app'.
  destruct (events_do_not_touch_the_simulation finder_pi pan_frame
              half_arch_app app'
              (release origin half_arch_end
                 (general_solution origin half_arch_end PI)))
    as (sim' & Hph & Hsim).
  - reflexivity.
  - cbn [events pan_frame]. intros [H | [H | []]]; discriminate.
  - exact Hrun.
  - exists sim'. split; [exact Hrun |]. split; assumption.
Defined.

Lemma two_clicks_start_the_simulation_witness :
  let reset_rect := mkRect 475 620 150 50 in
  let click_rect := mkRect 100 100 900 500 in
  let p1 := (300, 200)%Z in
  let p2 := (400, 300)%Z in
  exists a b app1,
    screen_to_world p1 (zoom initial_app) (offset initial_app) = Return a /\
    screen_to_world p2 (zoom initial_app) (offset initial_app) = Return b /\
    handle_event finder_pi reset_rect click_rect p1 (MOUSEBUTTONDOWN 1)
      initial_app = Return app1 /\
    app1 = set_phase (PickB a) initial_app /\
    ((snd p2 <= snd p1)%Z ->
     handle_event finder_pi reset_rect click_rect p2 (MOUSEBUTTONDOWN 1) app1
       = Return app1) /\
    ((snd p1 < snd p2)%Z ->
     handle_event finder_pi reset_rect click_rect p2 (MOUSEBUTTONDOWN 1) app1
       = (r <- calculate_paths finder_pi a b ;;
          Return match r with
                 | Some s => set_phase (Simulating (release a b s)) app1
                 | None => app1
                 end)).
Proof.
  intros reset_rect click_rect p1 p2.
  apply (two_clicks_start_the_simulation finder_pi reset_rect click_rect
           p1 p2 initial_app).
  - cbn [zoom initial_app]. lra.
  - reflexivity.
  - reflexivity.
  - reflexivity.
  - reflexivity.
  - reflexivity.
Defined.

Lemma click_area_clear_of_reset_button_witness :
  let area := click_area_rect 1100 700 900 in
  let button := RESET_BUTTON_RECT 1100 700 in
  (135 <= rect_height area)%Z /\
  (rect_top area + rect_height area <= rect_top button)%Z /\
  forall p, collidepoint area p = true -> collidepoint button p = false.
Proof.
  apply (click_area_clear_of_reset_button 1100 700 900). lia.
Defined.

Lemma quit_ends_the_loop_witness :
  running (set_running false initial_app) = false /\
  main_loop finder_pi [quit_frame; wheel_frame] initial_app
  = Return (set_running false initial_app).
Proof.
  apply (quit_ends_the_loop finder_pi quit_frame [wheel_frame] initial_app
           (set_running false initial_app) QUIT).
  - reflexivity.
  - left. reflexivity.
  - left. reflexivity.
  - exact quit_frame_result.
Defined.

(** ** Independence of the frame rate *)

Lemma simulation_update_clock (dt : R) (st : Sim) :
  solution_ok (sim_data st) -> state st = simulate ->
  exists st',
    simulation_update dt st = Return st' /\ sim_time st' = sim_time st + dt.
Proof.
  intros Hok Hstate. unfold simulation_update. rewrite Hstate. cbv zeta.
  set (st1 := set_sim_time (sim_time st + dt) st).
  destruct (update_line_bead_total st1) as (p1 & f1 & -> & _).
  { destruct Hok as (_ & HL & _). cbn. lra. }
  cbn [bind]. set (st2 := set_line p1 f1 st1).
  destruct (update_cycloid_bead_total st2) as (p2 & f2 & -> & _).
  { exact Hok. }
  cbn [bind].
  change (line_finished (set_cycloid p2 f2 st2)) with f1.
  change (cycloid_finished (set_cycloid p2 f2 st2)) with f2.
  destruct (f1 && f2); eexists; (split; [reflexivity |]); reflexivity.
Qed.

(** One update from a state in step: the new state is in step at the later
    time and shows what a single sample at that time shows. *)
Lemma in_step_update (s : PathSolution) (st : Sim) (t dt : R) :
  solution_ok s -> in_step s (sol_A s) (sol_B s) st t -> 0 <= dt ->
  exists st1 st2,
    simulation_update dt st = Return st1 /\
    sampleAt s (t + dt) = Return st2 /\
    in_step s (sol_A s) (sol_B s) st1 (t + dt) /\
    same_picture st1 st2.
Proof.
  intros Hok (Hsd & Hpa & Hpb & Hst & Hclock & Hres & Hlf & Hcf) Hdt.
  destruct (sampleAt_summary s (t + dt) Hok)
    as (st2 & Hrun2 & Hsd2 & Hl2a & Hl2b & Hc2a & Hc2b).
  destruct (simulation_update_phase (t + dt)
              (release (sol_A s) (sol_B s) s) Hok eq_refl)
    as (st2' & Hrun2' & Hph2).
  unfold sampleAt in Hrun2. assert (st2' = st2) by congruence. subst st2'.
  assert (Hok' : solution_ok (sim_data st)) by (rewrite Hsd; exact Hok).
  destruct Hst as [Hsim | Hdone].
  - (* the simulation is running *)
    specialize (Hclock Hsim).
    destruct (simulation_update_summary dt st Hok')
      as (st1 & Hrun1 & (Hsd1 & Hpa1 & Hpb1) & Hl1 & Hc1 & Hl1' & Hc1').
    destruct (simulation_update_phase dt st Hok' Hsim) as (st1' & Hrun1' & Hph1).
    assert (st1' = st1) by congruence. subst st1'.
    destruct (simulation_update_clock dt st Hok' Hsim) as (st1' & Hrun1'' & Hck).
    assert (st1' = st1) by congruence. subst st1'.
    specialize (Hl1' Hsim). specialize (Hc1' Hsim).
    rewrite Hsd, Hclock in Hl1', Hc1'. rewrite Hpb in Hl1', Hc1'.
    assert (Hline :
      (line_finished st1 = true -> line_t s <= t + dt /\
                                   pos_line_world st1 = sol_B s) /\
      line_finished st1 = line_finished st2 /\
      pos_line_world st1 = pos_line_world st2).
    { destruct (line_finished st) eqn:Hf.
      - destruct (Hl1 eq_refl) as [Hf1 Hp1]. destruct (Hlf eq_refl) as [HT HB].
        destruct Hl2a as [Hf2 Hp2]; [lra |].
        split; [intros _; split; [lra | congruence] |]. split; congruence.
      - destruct (Hl1' eq_refl) as [Harr Hfly].
        destruct (Rlt_dec (t + dt) (line_t s)) as [Hlt | Hge].
        + destruct (Hfly Hlt) as [Hf1 Hp1]. destruct (Hl2b Hlt) as [Hf2 Hp2].
          split; [intros Hc; congruence |]. split; [congruence |].
          rewrite Hp1, Hp2. unfold line_flight.
          cbn [release point_a_world sim_data]. rewrite Hsd, Hpa. reflexivity.
        + assert (Hle : line_t s <= t + dt) by lra.
          destruct (Harr Hle) as [Hf1 Hp1]. destruct (Hl2a Hle) as [Hf2 Hp2].
          split; [intros _; split; assumption |]. split; congruence. }
    assert (Hcyc :
      (cycloid_finished st1 = true -> cycloid_t s <= t + dt /\
                                      pos_cycloid_world st1 = sol_B s) /\
      cycloid_finished st1 = cycloid_finished st2 /\
      pos_cycloid_world st1 = pos_cycloid_world st2).
    { destruct (cycloid_finished st) eqn:Hf.
      - destruct (Hc1 eq_refl) as [Hf1 Hp1]. destruct (Hcf eq_refl) as [HT HB].
        destruct Hc2a as [Hf2 Hp2]; [lra |].
        split; [intros _; split; [lra | congruence] |]. split; congruence.
      - destruct (Hc1' eq_refl) as [Harr Hfly].
        destruct (Rlt_dec (t + dt) (cycloid_t s)) as [Hlt | Hge].
        + destruct (Hfly Hlt) as [Hf1 Hp1]. destruct (Hc2b Hlt) as [Hf2 Hp2].
          split; [intros Hc; congruence |]. split; [congruence |].
          rewrite Hp1, Hp2. unfold cycloid_flight.
          cbn [release point_a_world sim_data]. rewrite Hsd, Hpa. reflexivity.
        + assert (Hle : cycloid_t s <= t + dt) by lra.
          destruct (Harr Hle) as [Hf1 Hp1]. destruct (Hc2a Hle) as [Hf2 Hp2].
          split; [intros _; split; assumption |]. split; congruence. }
    destruct Hline as (Hl_in & Hl_f & Hl_p). destruct Hcyc as (Hc_in & Hc_f & Hc_p).
    exists st1, st2. split; [exact Hrun1 |]. split; [exact Hrun2 |]. split.
    + split; [congruence |]. split; [congruence |]. split; [congruence |].
      split; [destruct Hph1 as [(H & _) | (H & _)]; auto |].
      split; [intros _; rewrite Hck, Hclock; reflexivity |].
      split; [| split; assumption].
      intros Hr. destruct Hph1 as [(_ & H) | (H & _)]; [exact H | congruence].
    + split; [exact Hl_p |]. split; [exact Hc_p |]. split; [exact Hl_f |].
      split; [exact Hc_f |].
      destruct Hph1 as [(Hs1 & Hf1 & Hg1) | (Hs1 & Hfl1)];
        destruct Hph2 as [(Hs2 & Hf2 & Hg2) | (Hs2 & Hfl2)]; try congruence.
      * destruct Hfl2; congruence.
      * destruct Hfl1; congruence.
  - (* the simulation is over *)
    destruct (Hres Hdone) as [Hf Hg].
    destruct (Hlf Hf) as [HTl HBl]. destruct (Hcf Hg) as [HTc HBc].
    destruct Hl2a as [Hf2 Hp2]; [lra |]. destruct Hc2a as [Hg2 Hq2]; [lra |].
    exists st, st2.
    split; [apply simulation_update_results; exact Hdone |].
    split; [exact Hrun2 |]. split.
    + split; [exact Hsd |]. split; [exact Hpa |]. split; [exact Hpb |].
      split; [right; exact Hdone |].
      split; [intros H; congruence |]. split; [intros _; split; assumption |].
      split; intros _; split; (lra || assumption).
    + split; [congruence |]. split; [congruence |]. split; [congruence |].
      split; [congruence |].
      destruct Hph2 as [(Hs2 & _) | (_ & Hfl2)]; [congruence |].
      destruct Hfl2; congruence.
Qed.

Lemma release_in_step (s : PathSolution) :
  in_step s (sol_A s) (sol_B s) (release (sol_A s) (sol_B s) s) 0.
Proof.
  unfold in_step. cbn. repeat split; try discriminate; auto.
Qed.

Lemma run_ticks_in_step (s : PathSolution) (dts : list R) :
  solution_ok s -> Forall (fun dt => 0 <= dt) dts -> dts <> [] ->
  forall st t,
    in_step s (sol_A s) (sol_B s) st t ->
    exists st1 st2,
      run_ticks dts st = Return st1 /\
      sampleAt s (t + fold_right Rplus 0 dts) = Return st2 /\
      same_picture st1 st2.
Proof.
  intros Hok Hpos. induction dts as [| dt dts IH]; intros Hne st t Hin;
    [contradiction |].
  inversion Hpos as [| ? ? Hdt Hpos']; subst.
  destruct (in_step_update s st t dt Hok Hin Hdt)
    as (st1 & st2 & Hrun1 & Hrun2 & Hin1 & Hsame).
  cbn [run_ticks fold_right]. rewrite Hrun1. cbn [bind].
  destruct dts as [| dt' dts'].
  - exists st1, st2. cbn [run_ticks fold_right].
    replace (t + (dt + 0)) with (t + dt) by ring.
    split; [reflexivity |]. split; [exact Hrun2 | exact Hsame].
  - destruct (IH Hpos' ltac:(discriminate) st1 (t + dt) Hin1)
      as (st3 & st4 & Hrun3 & Hrun4 & Hsame34).
    exists st3, st4. split; [exact Hrun3 |].
    replace (t + (dt + fold_right Rplus 0 (dt' :: dts')))
      with (t + dt + fold_right Rplus 0 (dt' :: dts')) by ring.
    split; [exact Hrun4 | exact Hsame34].
Qed.

Section FrameRate.

Variable fsolve : (R -> R) -> R -> outcome R.

(** X21.  The beads do not depend on how the elapsed time is cut into
    frames: after any one or more updates with time steps that are not
    negative, the positions, the arrival flags and the state variable are
    those of a single update by the sum of the steps. *)
Theorem beads_do_not_depend_on_frame_rate
  (A B : point) (s : PathSolution) (dts : list R) :
  calculate_paths fsolve A B = Return (Some s) ->
  Forall (fun dt => 0 <= dt) dts -> dts <> [] ->
  exists st1 st2,
    run_ticks dts (release A B s) = Return st1 /\
    sampleAt s (fold_right Rplus 0 dts) = Return st2 /\
    pos_line_world st1 = pos_line_world st2 /\
    pos_cycloid_world st1 = pos_cycloid_world st2 /\
    line_finished st1 = line_finished st2 /\
    cycloid_finished st1 = cycloid_finished st2 /\
    state st1 = state st2.
Proof.
  intros Hs Hpos Hne.
  destruct (solve_some_ok _ _ _ _ Hs) as (Hok & HA & HB).
  destruct (run_ticks_in_step s dts Hok Hpos Hne
              (release (sol_A s) (sol_B s) s) 0 (release_in_step s))
    as (st1 & st2 & Hrun1 & Hrun2 & Hsame).
  rewrite HA, HB in Hrun1. rewrite Rplus_0_l in Hrun2.
  exists st1, st2. split; [exact Hrun1 |]. split; [exact Hrun2 |].
  exact Hsame.
Qed.

End FrameRate.

Lemma beads_do_not_depend_on_frame_rate_witness :
  let s := general_solution origin half_arch_end PI in
  let dts := [0.016; 0.017; 0.5] in
  exists st1 st2,
    run_ticks dts (release origin half_arch_end s) = Return st1 /\
    sampleAt s (fold_right Rplus 0 dts) = Return st2 /\
    pos_line_world st1 = pos_line_world st2 /\
    pos_cycloid_world st1 = pos_cycloid_world st2 /\
    line_finished st1 = line_finished st2 /\
    cycloid_finished st1 = cycloid_finished st2 /\
    state st1 = state st2.
Proof.
  intros s dts.
  apply (beads_do_not_depend_on_frame_rate finder_pi origin half_arch_end
           s dts).
  - exact half_arch_solved.
  - repeat constructor; lra.
  - discriminate.
Defined.

(** * The sampler on doubles *)

Section SamplerOnDoubles.

Variables libm_sin libm_cos : float -> float.




End SamplerOnDoubles.


